(** * The aws_ami resource: create, read, update, delete

    A shallow embedding of [aws/resource_aws_ami.go].  Go functions that
    take the [*schema.ResourceData] and the EC2 client become computations
    in a small state monad: the state holds the resource data, the remote
    side and the log of the API calls issued so far; a Go [return err]
    becomes [Failed err], a nil-pointer dereference becomes [Panicked]. *)

From Stdlib Require Import String ZArith List Bool Lia.
From stdpp Require Import base option list gmap strings.

Local Open Scope string_scope.
Local Open Scope Z_scope.

(** ** Errors *)

(** The Go [error] values that flow through the resource: errors of the
    EC2 client (an [awserr.Error] with its code), plain errors built by
    [errors.New] and [fmt.Errorf], and the two errors of the waiting
    helpers. *)
Inductive error : Type :=
| AwsErr (code message : string)
| ErrorString (s : string)
| TimeoutError (lastState : string)
| UnexpectedStateError (state : string).

#[global] Instance error_eq_dec : EqDecision error.
Proof. solve_decision. Defined.

(** [err.Error()] *)
Definition Error (e : error) : string :=
  match e with
  | AwsErr code message => code +:+ ": " +:+ message
  | ErrorString s => s
  | TimeoutError lastState =>
      "timeout while waiting for state (last state: '" +:+ lastState +:+ "')"
  | UnexpectedStateError state => "unexpected state '" +:+ state +:+ "'"
  end.

(** Modelled from the spec: [isAWSErr] is declared outside
    [resource_aws_ami.go]; it classifies an error by its AWS error code
    (the spec's "error classified as not found").  The message filter is
    the empty string at every call of this file, which every message
    contains. *)
Definition isAWSErr (err : error) (code : string) : bool :=
  match err with
  | AwsErr c _ => bool_decide (c = code)
  | _ => false
  end.

(** Modelled from the spec: [isResourceTimeoutError] is declared outside
    [resource_aws_ami.go]; it recognises the timeout error of the waiting
    helpers (the spec's TimeoutError). *)
Definition isResourceTimeoutError (err : option error) : bool :=
  match err with
  | Some (TimeoutError _) => true
  | _ => false
  end.

(** ** EC2 data *)

Record EbsBlockDevice : Type := {
  DeleteOnTermination : option bool;
  Encrypted : option bool;
  Iops : option Z;
  SnapshotId : option string;
  VolumeSize : option Z;
  VolumeType : option string
}.

Record BlockDeviceMapping : Type := {
  DeviceName : option string;
  VirtualName : option string;
  Ebs : option EbsBlockDevice
}.

Record RegisterImageInput : Type := {
  req_Name : option string;
  req_Description : option string;
  req_Architecture : option string;
  req_ImageLocation : option string;
  req_RootDeviceName : option string;
  req_SriovNetSupport : option string;
  req_VirtualizationType : option string;
  req_EnaSupport : option bool;
  req_KernelId : option string;
  req_RamdiskId : option string;
  req_BlockDeviceMappings : list BlockDeviceMapping
}.

Record Image : Type := {
  State : option string;
  img_Name : option string;
  img_Description : option string;
  img_ImageLocation : option string;
  img_Architecture : option string;
  img_KernelId : option string;
  img_RamdiskId : option string;
  img_RootDeviceName : option string;
  img_SriovNetSupport : option string;
  img_VirtualizationType : option string;
  img_EnaSupport : option bool;
  img_BlockDeviceMappings : list BlockDeviceMapping;
  img_Tags : gmap string string
}.

(** The generated client hands back a non-nil output with every call,
    next to the error; [Images] is empty when nothing was decoded. *)
Record DescribeImagesOutput : Type := { Images : list Image }.

Definition ImageStatePending : string := "pending".
Definition ImageStateAvailable : string := "available".
Definition ImageStateFailed : string := "failed".
Definition ImageStateDeregistered : string := "deregistered".

(** ** Resource data *)

(** One element of the [ebs_block_device] set.  [iops] and [volume_size]
    are looked up with the two-result form in the source, so the absence
    of the key is kept apart from a stored zero.  The Go [int] values are
    kept as integers: the conversion [int64(n)] changes no value. *)
Record EbsBlockDev : Type := {
  device_name : string;
  delete_on_termination : bool;
  encrypted : bool;
  iops : option Z;
  snapshot_id : string;
  volume_size : option Z;
  volume_type : string
}.

Record EphemeralBlockDev : Type := {
  eph_device_name : string;
  eph_virtual_name : string
}.

(** The [*schema.ResourceData] of one aws_ami: its identifier, the
    new-resource mark, the attributes as [d.Get] reads them, and the prior
    values of the two attributes that [d.HasChange] and [d.GetChange]
    compare.  The two sets are kept as the lists their [List()] yields. *)
Record ResourceData : Type := {
  d_Id : string;
  d_IsNewResource : bool;
  d_image_location : string;
  d_architecture : string;
  d_description : string;
  d_ebs_block_device : list EbsBlockDev;
  d_ena_support : bool;
  d_ephemeral_block_device : list EphemeralBlockDev;
  d_kernel_id : string;
  d_manage_ebs_snapshots : bool;
  d_name : string;
  d_ramdisk_id : string;
  d_root_device_name : string;
  d_root_snapshot_id : string;
  d_sriov_net_support : string;
  d_tags : gmap string string;
  d_virtualization_type : string;
  d_arn : string;
  d_tags_old : gmap string string;
  d_description_old : string
}.

(** [d.SetId(id)] *)
Definition SetId (id : string) (d : ResourceData) : ResourceData :=
  {| d_Id := id;
     d_IsNewResource := d_IsNewResource d;
     d_image_location := d_image_location d;
     d_architecture := d_architecture d;
     d_description := d_description d;
     d_ebs_block_device := d_ebs_block_device d;
     d_ena_support := d_ena_support d;
     d_ephemeral_block_device := d_ephemeral_block_device d;
     d_kernel_id := d_kernel_id d;
     d_manage_ebs_snapshots := d_manage_ebs_snapshots d;
     d_name := d_name d;
     d_ramdisk_id := d_ramdisk_id d;
     d_root_device_name := d_root_device_name d;
     d_root_snapshot_id := d_root_snapshot_id d;
     d_sriov_net_support := d_sriov_net_support d;
     d_tags := d_tags d;
     d_virtualization_type := d_virtualization_type d;
     d_arn := d_arn d;
     d_tags_old := d_tags_old d;
     d_description_old := d_description_old d |}.

(** ** The remote side and the call log *)

(** Every call the resource issues, with what came back. *)
Inductive Event : Type :=
| RegisterImageCall (req : RegisterImageInput) (res : error + string)
| CreateTagsCall (id : string) (tags : gmap string string) (err : option error)
| DeleteTagsCall (id : string) (keys : gset string) (err : option error)
| DescribeImagesCall (id : string) (out : DescribeImagesOutput) (err : option error)
| ModifyImageAttributeCall (id : string) (description : string) (err : option error)
| DeregisterImageCall (id : string) (err : option error)
| DeleteSnapshotCall (snapshotId : string) (err : option error).

(** The EC2 client over a remote side of type [World]: each operation
    answers and moves the remote side on. *)
Record EC2 (World : Type) : Type := {
  ec2_RegisterImage : RegisterImageInput -> World -> (error + string) * World;
  ec2_CreateTags : string -> gmap string string -> World -> option error * World;
  ec2_DeleteTags : string -> gset string -> World -> option error * World;
  ec2_DescribeImages : string -> World -> (DescribeImagesOutput * option error) * World;
  ec2_ModifyImageAttribute : string -> string -> World -> option error * World;
  ec2_DeregisterImage : string -> World -> option error * World;
  ec2_DeleteSnapshot : string -> World -> option error * World
}.
Arguments ec2_RegisterImage {World}.
Arguments ec2_CreateTags {World}.
Arguments ec2_DeleteTags {World}.
Arguments ec2_DescribeImages {World}.
Arguments ec2_ModifyImageAttribute {World}.
Arguments ec2_DeregisterImage {World}.
Arguments ec2_DeleteSnapshot {World}.

Record St (World : Type) : Type := {
  rd : ResourceData;
  remote : World;
  trace : list Event
}.
Arguments rd {World}.
Arguments remote {World}.
Arguments trace {World}.
Arguments Build_St {World}.

(** ** The monad *)

Inductive outcome (A : Type) : Type :=
| Done (a : A)
| Failed (err : error)
| Panicked.
Arguments Done {A}.
Arguments Failed {A}.
Arguments Panicked {A}.

Definition M (World : Type) (A : Type) : Type := St World -> outcome A * St World.

Definition ret {W A} (a : A) : M W A := fun st => (Done a, st).

Definition bind {W A B} (c : M W A) (k : A -> M W B) : M W B :=
  fun st =>
    match c st with
    | (Done a, st') => k a st'
    | (Failed e, st') => (Failed e, st')
    | (Panicked, st') => (Panicked, st')
    end.

(** [return err] *)
Definition fail {W A} (e : error) : M W A := fun st => (Failed e, st).

(** [*p] *)
Definition deref {W A} (p : option A) : M W A :=
  fun st => match p with Some a => (Done a, st) | None => (Panicked, st) end.

(** Runs [c] and hands its error back as a value, as a Go call whose
    error result is bound to a variable. *)
Definition catch {W A} (c : M W A) : M W (error + A) :=
  fun st =>
    match c st with
    | (Done a, st') => (Done (inr a), st')
    | (Failed e, st') => (Done (inl e), st')
    | (Panicked, st') => (Panicked, st')
    end.

Definition getData {W} : M W ResourceData := fun st => (Done (rd st), st).

Definition modifyData {W} (f : ResourceData -> ResourceData) : M W unit :=
  fun st => (Done tt, Build_St (f (rd st)) (remote st) (trace st)).

#[global] Instance M_ret {W} : MRet (M W) := @ret W.
#[global] Instance M_bind {W} : MBind (M W) := fun A B k c => bind c k.

(** [for _, x := range l { acc = body(acc, x) }] with early return. *)
Fixpoint foldM {W A B} (body : B -> A -> M W B) (l : list A) (acc : B) : M W B :=
  match l with
  | [] => ret acc
  | x :: l' => acc' ← body acc x; foldM body l' acc'
  end.

(** ** Create: building the request *)

Definition aws_String (s : string) : option string := Some s.
Definition aws_Bool (b : bool) : option bool := Some b.
Definition aws_Int64 (n : Z) : option Z := Some n.

(** Body of the loop over [ebs_block_device] in [resourceAwsAmiCreate]. *)
Definition ebsBlockDevMapping (ebsBlockDev : EbsBlockDev) : error + BlockDeviceMapping :=
  let Iops' :=
    match iops ebsBlockDev with
    | Some iop => if bool_decide (iop ≠ 0) then aws_Int64 iop else None
    | None => None
    end in
  let VolumeSize' :=
    match volume_size ebsBlockDev with
    | Some s => if bool_decide (s ≠ 0) then aws_Int64 s else None
    | None => None
    end in
  let mk SnapshotId' Encrypted' :=
    {| DeviceName := aws_String (device_name ebsBlockDev);
       VirtualName := None;
       Ebs := Some {| DeleteOnTermination := aws_Bool (delete_on_termination ebsBlockDev);
                      Encrypted := Encrypted';
                      Iops := Iops';
                      SnapshotId := SnapshotId';
                      VolumeSize := VolumeSize';
                      VolumeType := aws_String (volume_type ebsBlockDev) |} |} in
  let snapshotId := snapshot_id ebsBlockDev in
  if bool_decide (snapshotId ≠ "") then
    if encrypted ebsBlockDev then
      inl (ErrorString "can't set both 'snapshot_id' and 'encrypted'")
    else inr (mk (aws_String snapshotId) None)
  else if encrypted ebsBlockDev then inr (mk None (aws_Bool true))
  else inr (mk None None).

(** Body of the loop over [ephemeral_block_device]. *)
Definition ephemeralBlockDevMapping (ephemeralBlockDev : EphemeralBlockDev) : BlockDeviceMapping :=
  {| DeviceName := aws_String (eph_device_name ephemeralBlockDev);
     VirtualName := aws_String (eph_virtual_name ephemeralBlockDev);
     Ebs := None |}.

(** ** The resource over a client *)

(** The durations the resource waits for: the create and delete timeouts
    of the schema and the one minute of the retry in Read. *)
Inductive Duration : Type := TimeoutCreate | TimeoutDelete | OneMinute.

(** What a refresh function hands to the waiting loop (an [interface{}]
    in the source): the empty output or the image found. *)
Inductive RefreshResult : Type :=
| RefreshOutput (resp : DescribeImagesOutput)
| RefreshImage (image : Image).

Inductive RetryError : Type :=
| RetryableError (err : error)
| NonRetryableError (err : error).

Definition newline : string := String (Ascii.ascii_of_nat 10) EmptyString.

(** [strings.Join] *)
Definition Join (elems : list string) (sep : string) : string := String.concat sep elems.

Section Resource.

Context {World : Type}.

(** the [AWSClient] behind [meta]: the client, the partition and the region, and
    the tag filter [IgnoreAws().IgnoreConfig(ignoreTagsConfig)]. *)
Variable client : EC2 World.
Variable partition region : string.
Variable ignoreTags : gmap string string -> gmap string string.

(** [amiRootSnapshotId] is declared in another file of the package. *)
Variable amiRootSnapshotId : Image -> string.

(** Time is not modelled: [attempts t] is the number of further polls
    that fit into the duration [t] after the first one. *)
Variable attempts : Duration -> nat.

(** The order in which [range] walks the map of snapshot errors; Go
    leaves it unspecified. *)
Variable rangeErrs : gmap string error -> list (string * error).

(** [d.Set] of a set attribute with a slice makes a [schema.Set] of the
    slice, keyed by the hash code that the attribute's [Set] function
    gives each element; elements of equal code are merged and [List()]
    yields the elements in the order of their codes.  [schema.Set] and
    [hashcode.String] are outside this file: [ebsSetList l] is the list
    that [List()] yields after [d.Set("ebs_block_device", l)], and
    [ephemeralSetList] the same for ["ephemeral_block_device"]. *)
Variable ebsSetList : list EbsBlockDev -> list EbsBlockDev.
Variable ephemeralSetList : list EphemeralBlockDev -> list EphemeralBlockDev.

Local Abbreviation M := (M World).

Definition emit (e : Event) (w : World) (st : St World) : St World :=
  Build_St (rd st) w (trace st ++ [e])%list.

Definition RegisterImage (req : RegisterImageInput) : M (error + string) :=
  fun st =>
    let '(res, w) := ec2_RegisterImage client req (remote st) in
    (Done res, emit (RegisterImageCall req res) w st).

Definition CreateTags (id : string) (tags : gmap string string) : M (option error) :=
  fun st =>
    let '(err, w) := ec2_CreateTags client id tags (remote st) in
    (Done err, emit (CreateTagsCall id tags err) w st).

Definition DeleteTags (id : string) (keys : gset string) : M (option error) :=
  fun st =>
    let '(err, w) := ec2_DeleteTags client id keys (remote st) in
    (Done err, emit (DeleteTagsCall id keys err) w st).

Definition DescribeImages (id : string) : M (DescribeImagesOutput * option error) :=
  fun st =>
    let '((out, err), w) := ec2_DescribeImages client id (remote st) in
    (Done (out, err), emit (DescribeImagesCall id out err) w st).

Definition ModifyImageAttribute (id description : string) : M (option error) :=
  fun st =>
    let '(err, w) := ec2_ModifyImageAttribute client id description (remote st) in
    (Done err, emit (ModifyImageAttributeCall id description err) w st).

Definition DeregisterImage (id : string) : M (option error) :=
  fun st =>
    let '(err, w) := ec2_DeregisterImage client id (remote st) in
    (Done err, emit (DeregisterImageCall id err) w st).

Definition DeleteSnapshot (snapshotId : string) : M (option error) :=
  fun st =>
    let '(err, w) := ec2_DeleteSnapshot client snapshotId (remote st) in
    (Done err, emit (DeleteSnapshotCall snapshotId err) w st).

(** *** Waiting *)

Record StateChangeConf : Type := {
  Pending : list string;
  Target : list string;
  Refresh : M (RefreshResult * string);
  Timeout : Duration
}.

(** Modelled from the spec: [WaitForState] belongs to the plugin SDK
    and is not in [resource_aws_ami.go].  It calls the probe repeatedly;
    an error of the probe ends the wait with that error; a status in
    the target set ends it with the record; a status in the pending set
    polls again until the timeout, whose error carries the last status;
    a status outside both sets is returned at once as an error naming
    the status. *)
Fixpoint WaitForState_loop (conf : StateChangeConf) (n : nat) : M RefreshResult :=
  '(res, currentState) ← Refresh conf;
  if bool_decide (currentState ∈ Target conf) then ret res
  else if bool_decide (currentState ∈ Pending conf) then
    match n with
    | O => fail (TimeoutError currentState)
    | S n' => WaitForState_loop conf n'
    end
  else fail (UnexpectedStateError currentState).

Definition WaitForState (conf : StateChangeConf) : M RefreshResult :=
  WaitForState_loop conf (attempts (Timeout conf)).

(** Modelled from the spec: [resource.Retry] belongs to the plugin SDK.
    It runs [f] until it reports no error or an error that is not
    retryable, or until the duration is used up; the transient error of
    the last run then surfaces.  [f] also hands back the variable it
    assigns ([res] in Read). *)
Fixpoint Retry_loop {R} (f : M (R * option RetryError)) (n : nat) : M (R * option error) :=
  '(res, rerr) ← f;
  match rerr with
  | None => ret (res, None)
  | Some (NonRetryableError err) => ret (res, Some err)
  | Some (RetryableError err) =>
      match n with
      | O => ret (res, Some err)
      | S n' => Retry_loop f n'
      end
  end.

Definition Retry {R} (timeout : Duration) (f : M (R * option RetryError)) : M (R * option error) :=
  Retry_loop f (attempts timeout).

(** The output of the client is never nil, so the nil tests of the
    source ([resp != nil], [resp == nil], [resp.Images == nil]) come
    down to the test on the number of images. *)
Definition AMIStateRefreshFunc (id : string) : M (RefreshResult * string) :=
  let emptyResp := {| Images := [] |} in
  '(resp, err) ← DescribeImages id;
  match err with
  | Some err =>
      if isAWSErr err "InvalidAMIID.NotFound" then
        ret (RefreshOutput emptyResp, "destroyed")
      else if bool_decide (length (Images resp) = 0%nat) then
        ret (RefreshOutput emptyResp, "destroyed")
      else fail (ErrorString ("Error on refresh: " +:+ Error err))
  | None =>
      match Images resp with
      | [] => ret (RefreshOutput emptyResp, "destroyed")
      | image :: _ =>
          (* AMI is valid, so return it's state *)
          state ← deref (State image);
          ret (RefreshImage image, state)
      end
  end.

Definition destroyConf (timeout : Duration) (id : string) : StateChangeConf :=
  {| Pending := [ImageStateAvailable; ImageStatePending; ImageStateFailed];
     Target := ["destroyed"];
     Refresh := AMIStateRefreshFunc id;
     Timeout := timeout |}.

Definition resourceAwsAmiWaitForDestroy (timeout : Duration) (id : string) : M unit :=
  r ← catch (WaitForState (destroyConf timeout id));
  match r with
  | inl err =>
      fail (ErrorString ("Error waiting for AMI (" +:+ id +:+ ") to be deleted: " +:+ Error err))
  | inr _ => ret tt
  end.

Definition availableConf (timeout : Duration) (id : string) : StateChangeConf :=
  {| Pending := [ImageStatePending];
     Target := [ImageStateAvailable];
     Refresh := AMIStateRefreshFunc id;
     Timeout := timeout |}.

Definition resourceAwsAmiWaitForAvailable (timeout : Duration) (id : string) : M Image :=
  r ← catch (WaitForState (availableConf timeout id));
  match r with
  | inl err =>
      fail (ErrorString ("Error waiting for AMI (" +:+ id +:+ ") to be ready: " +:+ Error err))
  | inr (RefreshImage image) => ret image
  | inr (RefreshOutput _) => fun st => (Panicked, st)   (* the type assertion on info *)
  end.

(** *** Tags *)

(** Modelled from the spec: [keyvaluetags.Ec2CreateTags] is declared in
    another package of the repository; it is the interface operation
    [apply_tags(id, map)]. *)
Definition Ec2CreateTags (identifier : string) (tagsMap : gmap string string) : M unit :=
  err ← CreateTags identifier tagsMap;
  match err with
  | Some err => fail err
  | None => ret tt
  end.

(** Modelled from the spec: the tag keys to remove of the TagDiff of the
    Tag Synchronizer, those of the previously recorded tag map that the
    newly declared one dropped. *)
Definition removedTags (oldTags newTags : gmap string string) : gset string :=
  dom oldTags ∖ dom newTags.

(** Modelled from the spec: the tags to add or overwrite of the TagDiff,
    those of the newly declared map that the recorded map does not hold
    with the same value. *)
Definition updatedTags (oldTags newTags : gmap string string) : gmap string string :=
  filter (λ kv, oldTags !! kv.1 ≠ Some kv.2) newTags.

(** Modelled from the spec: [keyvaluetags.Ec2UpdateTags] is declared in
    another package of the repository; the Tag Synchronizer issues the
    minimal remove and apply calls of the TagDiff: a remove call when a
    key was dropped, an apply call when a tag was added or changed. *)
Definition Ec2UpdateTags (identifier : string) (oldTagsMap newTagsMap : gmap string string) : M unit :=
  (if bool_decide (removedTags oldTagsMap newTagsMap ≠ ∅) then
     err ← DeleteTags identifier (removedTags oldTagsMap newTagsMap);
     match err with
     | Some err => fail err
     | None => ret tt
     end
   else ret tt);;
  (if bool_decide (updatedTags oldTagsMap newTagsMap ≠ ∅) then
     err ← CreateTags identifier (updatedTags oldTagsMap newTagsMap);
     match err with
     | Some err => fail err
     | None => ret tt
     end
   else ret tt).

(** *** Create *)

Definition registerImageInput (d : ResourceData) (mappings : list BlockDeviceMapping)
  : RegisterImageInput :=
  {| req_Name := aws_String (d_name d);
     req_Description := aws_String (d_description d);
     req_Architecture := aws_String (d_architecture d);
     req_ImageLocation := aws_String (d_image_location d);
     req_RootDeviceName := aws_String (d_root_device_name d);
     req_SriovNetSupport := aws_String (d_sriov_net_support d);
     req_VirtualizationType := aws_String (d_virtualization_type d);
     req_EnaSupport := aws_Bool (d_ena_support d);
     req_KernelId :=
       if bool_decide (d_kernel_id d ≠ "") then aws_String (d_kernel_id d) else None;
     req_RamdiskId :=
       if bool_decide (d_ramdisk_id d ≠ "") then aws_String (d_ramdisk_id d) else None;
     req_BlockDeviceMappings := mappings |}.

(** The two loops that fill [req.BlockDeviceMappings]. *)
Definition blockDeviceMappings (d : ResourceData) : M (list BlockDeviceMapping) :=
  mappings ← foldM (fun acc ebsBlockDev =>
                      match ebsBlockDevMapping ebsBlockDev with
                      | inl err => fail err
                      | inr blockDev => ret (acc ++ [blockDev])%list
                      end) (d_ebs_block_device d) [];
  foldM (fun acc ephemeralBlockDev =>
           ret (acc ++ [ephemeralBlockDevMapping ephemeralBlockDev])%list)
        (d_ephemeral_block_device d) mappings.

(** *** Read *)

(** The function literal handed to [resource.Retry] in Read, with the
    [res] it assigns. *)
Definition readAttempt (id : string) : M (DescribeImagesOutput * option RetryError) :=
  '(res, err) ← DescribeImages id;
  match err with
  | Some err =>
      if isAWSErr err "InvalidAMIID.NotFound" then
        d ← getData;
        if d_IsNewResource d then ret (res, Some (RetryableError err))
        else
          modifyData (SetId "");;
          ret (res, None)
      else ret (res, Some (NonRetryableError err))
  | None => ret (res, None)
  end.

(** The scalar [d.Set] calls of Read; a nil pointer leaves the zero
    value. *)
Definition setImageAttributes (image : Image) (imageArn : string) (d : ResourceData)
  : ResourceData :=
  {| d_Id := d_Id d;
     d_IsNewResource := d_IsNewResource d;
     d_image_location := default "" (img_ImageLocation image);
     d_architecture := default "" (img_Architecture image);
     d_description := default "" (img_Description image);
     d_ebs_block_device := d_ebs_block_device d;
     d_ena_support := default false (img_EnaSupport image);
     d_ephemeral_block_device := d_ephemeral_block_device d;
     d_kernel_id := default "" (img_KernelId image);
     d_manage_ebs_snapshots := d_manage_ebs_snapshots d;
     d_name := default "" (img_Name image);
     d_ramdisk_id := default "" (img_RamdiskId image);
     d_root_device_name := default "" (img_RootDeviceName image);
     d_root_snapshot_id := amiRootSnapshotId image;
     d_sriov_net_support := default "" (img_SriovNetSupport image);
     d_tags := d_tags d;
     d_virtualization_type := default "" (img_VirtualizationType image);
     d_arn := imageArn;
     d_tags_old := d_tags_old d;
     d_description_old := d_description_old d |}.

(** [d.Set] of the two block device sets and of the tags;
    [ebsBlockDevs] and [ephemeralBlockDevs] are the lists of the sets
    made of the slices of Read. *)
Definition setBlockDevicesAndTags (ebsBlockDevs : list EbsBlockDev)
    (ephemeralBlockDevs : list EphemeralBlockDev) (tags : gmap string string)
    (d : ResourceData) : ResourceData :=
  {| d_Id := d_Id d;
     d_IsNewResource := d_IsNewResource d;
     d_image_location := d_image_location d;
     d_architecture := d_architecture d;
     d_description := d_description d;
     d_ebs_block_device := ebsBlockDevs;
     d_ena_support := d_ena_support d;
     d_ephemeral_block_device := ephemeralBlockDevs;
     d_kernel_id := d_kernel_id d;
     d_manage_ebs_snapshots := d_manage_ebs_snapshots d;
     d_name := d_name d;
     d_ramdisk_id := d_ramdisk_id d;
     d_root_device_name := d_root_device_name d;
     d_root_snapshot_id := d_root_snapshot_id d;
     d_sriov_net_support := d_sriov_net_support d;
     d_tags := tags;
     d_virtualization_type := d_virtualization_type d;
     d_arn := d_arn d;
     d_tags_old := d_tags_old d;
     d_description_old := d_description_old d |}.

(** [arn.ARN{...}.String()] with an empty account id. *)
Definition imageArn (id : string) : string :=
  "arn:" +:+ partition +:+ ":ec2:" +:+ region +:+ "::image/" +:+ id.

(** Body of the loop over [image.BlockDeviceMappings] in Read.  The
    [snapshot_id] key is left out when the pointer is nil; the set
    element then reads as the empty string. *)
Definition flattenBlockDev
    (acc : list EbsBlockDev * list EphemeralBlockDev) (blockDev : BlockDeviceMapping)
  : M (list EbsBlockDev * list EphemeralBlockDev) :=
  let '(ebsBlockDevs, ephemeralBlockDevs) := acc in
  match Ebs blockDev with
  | Some ebs =>
      deviceName ← deref (DeviceName blockDev);
      deleteOnTermination ← deref (DeleteOnTermination ebs);
      encrypted ← deref (Encrypted ebs);
      volumeSize ← deref (VolumeSize ebs);
      volumeType ← deref (VolumeType ebs);
      let ebsBlockDev :=
        {| device_name := deviceName;
           delete_on_termination := deleteOnTermination;
           encrypted := encrypted;
           iops := Some (default 0 (Iops ebs));
           snapshot_id := default "" (SnapshotId ebs);
           volume_size := Some volumeSize;
           volume_type := volumeType |} in
      ret ((ebsBlockDevs ++ [ebsBlockDev])%list, ephemeralBlockDevs)
  | None =>
      deviceName ← deref (DeviceName blockDev);
      virtualName ← deref (VirtualName blockDev);
      ret (ebsBlockDevs,
           (ephemeralBlockDevs ++ [{| eph_device_name := deviceName;
                                      eph_virtual_name := virtualName |}])%list)
  end.

Definition resourceAwsAmiRead : M unit :=
  d ← getData;
  let id := d_Id d in
  '(res, err) ← Retry OneMinute (readAttempt id);
  '(res, err) ← (if isResourceTimeoutError err then DescribeImages id else ret (res, err));
  match err with
  | Some err => fail (ErrorString ("Unable to find AMI after retries: " +:+ Error err))
  | None =>
      if bool_decide (length (Images res) ≠ 1%nat) then
        modifyData (SetId "")
      else
        image ← deref (head (Images res));
        state ← deref (State image);
        '(image, state) ←
          (if bool_decide (state = ImageStatePending) then
             image ← resourceAwsAmiWaitForAvailable TimeoutCreate id;
             state ← deref (State image);
             ret (image, state)
           else ret (image, state));
        if bool_decide (state = ImageStateDeregistered) then
          modifyData (SetId "")
        else if bool_decide (state ≠ ImageStateAvailable) then
          fail (ErrorString ("AMI has become " +:+ state))
        else
          d ← getData;
          modifyData (setImageAttributes image (imageArn (d_Id d)));;
          '(ebsBlockDevs, ephemeralBlockDevs) ←
            foldM flattenBlockDev (img_BlockDeviceMappings image) ([], []);
          modifyData (setBlockDevicesAndTags (ebsSetList ebsBlockDevs)
                        (ephemeralSetList ephemeralBlockDevs)
                        (ignoreTags (img_Tags image)))
  end.

(** *** Create *)

Definition resourceAwsAmiCreate : M unit :=
  d ← getData;
  mappings ← blockDeviceMappings d;
  let req := registerImageInput d mappings in
  res ← RegisterImage req;
  match res with
  | inl err => fail err
  | inr id =>
      modifyData (SetId id);;
      (let v := d_tags d in
       if bool_decide (0 < size v)%nat then
         r ← catch (Ec2CreateTags id v);
         match r with
         | inl err => fail (ErrorString ("error adding tags: " +:+ Error err))
         | inr _ => ret tt
         end
       else ret tt);;
      resourceAwsAmiWaitForAvailable TimeoutCreate id;;
      resourceAwsAmiRead
  end.

(** *** Update *)

(** [d.HasChange("tags")] *)
Definition HasChange_tags (d : ResourceData) : bool :=
  bool_decide (d_tags_old d ≠ d_tags d).

Definition resourceAwsAmiUpdate : M unit :=
  d ← getData;
  (if HasChange_tags d then
     let '(o, n) := (d_tags_old d, d_tags d) in
     r ← catch (Ec2UpdateTags (d_Id d) o n);
     match r with
     | inl err =>
         fail (ErrorString ("error updating AMI (" +:+ d_Id d +:+ ") tags: " +:+ Error err))
     | inr _ => ret tt
     end
   else ret tt);;
  (if bool_decide (d_description d ≠ "") then
     err ← ModifyImageAttribute (d_Id d) (d_description d);
     match err with
     | Some err => fail err
     | None => ret tt
     end
   else ret tt);;
  resourceAwsAmiRead.

(** *** Delete *)

(** Body of the loop over [ebs_block_device] in Delete. *)
Definition deleteSnapshotOf (errs : gmap string error) (ebsBlockDev : EbsBlockDev)
  : M (gmap string error) :=
  let snapshotId := snapshot_id ebsBlockDev in
  if bool_decide (snapshotId ≠ "") then
    err ← DeleteSnapshot snapshotId;
    match err with
    | Some err => ret (<[snapshotId := err]> errs)
    | None => ret errs
    end
  else ret errs.

Definition snapshotErrorParts (errs : gmap string error) : list string :=
  (["Errors while deleting associated EBS snapshots:"]
   ++ map (fun '(snapshotId, err) => snapshotId +:+ ": " +:+ Error err) (rangeErrs errs)
   ++ ["These are no longer managed by Terraform and must be deleted manually."])%list.

Definition resourceAwsAmiDelete : M unit :=
  d ← getData;
  err ← DeregisterImage (d_Id d);
  match err with
  | Some err => fail err
  | None =>
      (* If we're managing the EBS snapshots then we need to delete those too. *)
      (if d_manage_ebs_snapshots d then
         errs ← foldM deleteSnapshotOf (d_ebs_block_device d) ∅;
         if bool_decide (0 < size errs)%nat then
           fail (ErrorString (Join (snapshotErrorParts errs) newline))
         else ret tt
       else ret tt);;
      (* Verify that the image is actually removed, if not we need to wait for it to be removed *)
      d ← getData;
      resourceAwsAmiWaitForDestroy TimeoutDelete (d_Id d)
  end.

End Resource.

(** ** The set functions of the two block device sets *)

Section SetFunctions.

(** [hashcode.String] is declared in another package of the
    repository. *)
Variable hashcode_String : string -> Z.

(** The [Set] function of [ebs_block_device]. *)
Definition ebs_block_device_Set (m : EbsBlockDev) : Z :=
  let buf := "" in
  let buf := buf +:+ (device_name m +:+ "-") in
  let buf := buf +:+ (snapshot_id m +:+ "-") in
  hashcode_String buf.

(** The [Set] function of [ephemeral_block_device]. *)
Definition ephemeral_block_device_Set (m : EphemeralBlockDev) : Z :=
  let buf := "" in
  let buf := buf +:+ (eph_device_name m +:+ "-") in
  let buf := buf +:+ (eph_virtual_name m +:+ "-") in
  hashcode_String buf.

End SetFunctions.

(** ** Predicates on runs *)

(** The events a run adds to the log. *)
Definition newEvents {W} (st st' : St W) : list Event :=
  drop (length (trace st)) (trace st').

(** Every event that [c] adds to the log satisfies [P]. *)
Definition emits {W A} (P : Event -> Prop) (c : M W A) : Prop :=
  forall st, exists evs, trace (c st).2 = (trace st ++ evs)%list /\ Forall P evs.

(** [c] leaves the resource data alone. *)
Definition keeps {W A} (c : M W A) : Prop :=
  forall st, rd (c st).2 = rd st.

(** [c] never returns an error. *)
Definition nofail {W A} (c : M W A) : Prop :=
  forall st e, (c st).1 <> Failed e.

(** On a resource marked new, [c] leaves the resource data alone. *)
Definition keepsNew {W A} (c : M W A) : Prop :=
  forall st, d_IsNewResource (rd st) = true -> rd (c st).2 = rd st.

(** On a resource marked new, [c] returns an error only with the resource
    data it started from. *)
Definition failsClean {W A} (c : M W A) : Prop :=
  forall st, d_IsNewResource (rd st) = true ->
    forall e, (c st).1 = Failed e -> rd (c st).2 = rd st.

Definition isDescribeImages (e : Event) : Prop :=
  match e with DescribeImagesCall _ _ _ => True | _ => False end.

Definition isDeleteSnapshot (e : Event) : Prop :=
  match e with DeleteSnapshotCall _ _ => True | _ => False end.

Definition isTagCall (e : Event) : Prop :=
  match e with CreateTagsCall _ _ _ | DeleteTagsCall _ _ _ => True | _ => False end.

Definition isRegisterImage (e : Event) : Prop :=
  match e with RegisterImageCall _ _ => True | _ => False end.

Definition isModifyImageAttribute (e : Event) : Prop :=
  match e with ModifyImageAttributeCall _ _ _ => True | _ => False end.

(** The snapshot ids of the DeleteSnapshot calls of a log, in order. *)
Definition attemptedSnapshots (evs : list Event) : list string :=
  omap (fun e => match e with DeleteSnapshotCall snapshotId _ => Some snapshotId | _ => None end) evs.

(** The snapshot whose deletion [e] records as failed. *)
Definition failedSnapshot (snapshotId : string) (evs : list Event) : Prop :=
  exists err, In (DeleteSnapshotCall snapshotId (Some err)) evs.

(** The calls of a TagDiff when each of them succeeds. *)
Definition tagDiffCalls (id : string) (oldTags newTags : gmap string string) : list Event :=
  ((if bool_decide (removedTags oldTags newTags ≠ ∅)
    then [DeleteTagsCall id (removedTags oldTags newTags) None] else [])
   ++ (if bool_decide (updatedTags oldTags newTags ≠ ∅)
       then [CreateTagsCall id (updatedTags oldTags newTags) None] else []))%list.

(** An EBS element of the configuration and its mapping in the request:
    the request carries [Iops] (resp. [VolumeSize]) exactly when the
    declared value is there and is not zero, and then with that value. *)
Definition sendsNumerics (e : EbsBlockDev) (blockDev : BlockDeviceMapping) : Prop :=
  exists ebs,
    Ebs blockDev = Some ebs /\
    DeviceName blockDev = Some (device_name e) /\
    (forall v, Iops ebs = Some v <-> iops e = Some v /\ v <> 0) /\
    (forall v, VolumeSize ebs = Some v <-> volume_size e = Some v /\ v <> 0).

(** The element sets both a snapshot and the encrypted flag. *)
Definition snapshotAndEncrypted (e : EbsBlockDev) : Prop :=
  snapshot_id e <> "" /\ encrypted e = true.

Definition conflictError : error :=
  ErrorString "can't set both 'snapshot_id' and 'encrypted'".

(** ** A scripted remote side, for running the resource on examples *)

Module Scripted.

(** The remote side answers from a script: the answer to RegisterImage,
    the answers to the successive DescribeImages calls (an empty output
    without error once they are used up), the snapshots whose deletion
    fails, and the answers of the other calls. *)
Record World : Type := {
  registerAnswer : error + string;
  describeAnswers : list (DescribeImagesOutput * option error);
  failingSnapshots : list string;
  deregisterAnswer : option error;
  createTagsAnswer : option error;
  deleteTagsAnswer : option error;
  modifyAnswer : option error
}.

Definition accessDenied : error := AwsErr "UnauthorizedOperation" "not authorized".
Definition notFound : error := AwsErr "InvalidAMIID.NotFound" "the image id does not exist".

Definition client : EC2 World :=
  {| ec2_RegisterImage := fun _ w => (registerAnswer w, w);
     ec2_CreateTags := fun _ _ w => (createTagsAnswer w, w);
     ec2_DeleteTags := fun _ _ w => (deleteTagsAnswer w, w);
     ec2_DescribeImages := fun _ w =>
       match describeAnswers w with
       | [] => (({| Images := [] |}, None), w)
       | a :: rest =>
           (a, {| registerAnswer := registerAnswer w;
                  describeAnswers := rest;
                  failingSnapshots := failingSnapshots w;
                  deregisterAnswer := deregisterAnswer w;
                  createTagsAnswer := createTagsAnswer w;
                  deleteTagsAnswer := deleteTagsAnswer w;
                  modifyAnswer := modifyAnswer w |})
       end;
     ec2_ModifyImageAttribute := fun _ _ w => (modifyAnswer w, w);
     ec2_DeregisterImage := fun _ w => (deregisterAnswer w, w);
     ec2_DeleteSnapshot := fun snapshotId w =>
       (if bool_decide (snapshotId ∈ failingSnapshots w) then Some accessDenied else None, w) |}.

Definition world (describes : list (DescribeImagesOutput * option error))
    (failing : list string) : World :=
  {| registerAnswer := inr "ami-1";
     describeAnswers := describes;
     failingSnapshots := failing;
     deregisterAnswer := None;
     createTagsAnswer := None;
     deleteTagsAnswer := None;
     modifyAnswer := None |}.

Definition ebs (deviceName snapshotId : string) (enc : bool) (iop size : option Z)
  : EbsBlockDev :=
  {| device_name := deviceName;
     delete_on_termination := true;
     encrypted := enc;
     iops := iop;
     snapshot_id := snapshotId;
     volume_size := size;
     volume_type := "gp2" |}.

Definition data (id : string) (isNew : bool) (description : string)
    (ebsBlockDevs : list EbsBlockDev) (manage : bool)
    (oldTags tags : gmap string string) : ResourceData :=
  {| d_Id := id;
     d_IsNewResource := isNew;
     d_image_location := "";
     d_architecture := "x86_64";
     d_description := description;
     d_ebs_block_device := ebsBlockDevs;
     d_ena_support := false;
     d_ephemeral_block_device := [];
     d_kernel_id := "";
     d_manage_ebs_snapshots := manage;
     d_name := "image";
     d_ramdisk_id := "";
     d_root_device_name := "/dev/sda1";
     d_root_snapshot_id := "";
     d_sriov_net_support := "simple";
     d_tags := tags;
     d_virtualization_type := "paravirtual";
     d_arn := "";
     d_tags_old := oldTags;
     d_description_old := description |}.

Definition image (state : string) : Image :=
  {| State := Some state;
     img_Name := Some "image";
     img_Description := None;
     img_ImageLocation := None;
     img_Architecture := Some "x86_64";
     img_KernelId := None;
     img_RamdiskId := None;
     img_RootDeviceName := Some "/dev/sda1";
     img_SriovNetSupport := Some "simple";
     img_VirtualizationType := Some "paravirtual";
     img_EnaSupport := Some false;
     img_BlockDeviceMappings := [];
     img_Tags := ∅ |}.

Definition start (d : ResourceData) (w : World) : St World :=
  {| rd := d; remote := w; trace := [] |}.

Definition attempts (t : Duration) : nat := 5.

(** The sets of the examples: elements of equal key (the two fields
    that the attribute's [Set] function hashes) are merged, the first
    one kept, in the order of the first occurrences. *)
Fixpoint mergeBy {A K} `{EqDecision K} (key : A -> K) (l : list A) : list A :=
  match l with
  | [] => []
  | x :: l' => x :: filter (fun y => key y ≠ key x) (mergeBy key l')
  end.

Definition ebsSetList : list EbsBlockDev -> list EbsBlockDev :=
  mergeBy (fun e => (device_name e, snapshot_id e)).

Definition ephemeralSetList : list EphemeralBlockDev -> list EphemeralBlockDev :=
  mergeBy (fun e => (eph_device_name e, eph_virtual_name e)).

Definition Create := resourceAwsAmiCreate client "aws" "us-east-1" id (fun _ => "") attempts ebsSetList ephemeralSetList.
Definition Read := resourceAwsAmiRead client "aws" "us-east-1" id (fun _ => "") attempts ebsSetList ephemeralSetList.
Definition Update := resourceAwsAmiUpdate client "aws" "us-east-1" id (fun _ => "") attempts ebsSetList ephemeralSetList.
Definition Delete := resourceAwsAmiDelete client attempts map_to_list.

(** *** Example runs *)

(** A configuration whose only EBS element sets a snapshot and the
    encrypted flag. *)
Definition conflictStart : St World :=
  start (data "" true "" [ebs "/dev/sda1" "snap-1" true None (Some 8)] false ∅ ∅)
        (world [] []).

(** A configuration with a declared size and no iops, one with both set
    to zero, and one with both set. *)
Definition numericsData : ResourceData :=
  data "" true ""
       [ebs "/dev/sda1" "" false None (Some 8);
        ebs "/dev/sdb" "" false (Some 0) (Some 0);
        ebs "/dev/sdc" "" false (Some 100) (Some 20)] false ∅ ∅.

Definition numericsStart : St World :=
  start numericsData
        (world [({| Images := [image "available"] |}, None);
                ({| Images := [image "available"] |}, None)] []).

(** A new image with one tag; the image is pending at the first probe. *)
Definition taggedData : ResourceData :=
  data "" true "" [] false ∅ {["env" := "prod"]}.

Definition taggedStart : St World :=
  start taggedData
        (world [({| Images := [image "pending"] |}, None);
                ({| Images := [image "available"] |}, None);
                ({| Images := [image "available"] |}, None)] []).

(** A new image that the first probe after the registration does not
    find yet. *)
Definition notFoundYetStart : St World :=
  start (data "" true "" [] false ∅ ∅)
        (world [({| Images := [] |}, Some notFound);
                ({| Images := [image "available"] |}, None);
                ({| Images := [image "available"] |}, None)] []).

(** The state of [notFoundYetStart] once the image is registered. *)
Definition notFoundYetRegistered : St World :=
  start (data "ami-1" true "" [] false ∅ ∅)
        (world [({| Images := [] |}, Some notFound);
                ({| Images := [image "available"] |}, None);
                ({| Images := [image "available"] |}, None)] []).

(** An image in the state that is gone on the remote side. *)
Definition goneStart : St World :=
  start (data "ami-1" false "" [] false ∅ ∅)
        (world [({| Images := [] |}, Some notFound)] []).

(** An image with three managed snapshots; the deletion of the second
    one fails. *)
Definition cascadeData : ResourceData :=
  data "ami-1" false ""
       [ebs "/dev/sda1" "s1" false None (Some 8);
        ebs "/dev/sdb" "s2" false None (Some 8);
        ebs "/dev/sdc" "s3" false None (Some 8)] true ∅ ∅.

Definition cascadeStart : St World := start cascadeData (world [] ["s2"]).

(** The same image when every deletion succeeds. *)
Definition cleanCascadeStart : St World := start cascadeData (world [] []).

(** An image whose deregistration is refused. *)
Definition refusedStart : St World :=
  start cascadeData
        {| registerAnswer := inr "ami-1";
           describeAnswers := [];
           failingSnapshots := [];
           deregisterAnswer := Some accessDenied;
           createTagsAnswer := None;
           deleteTagsAnswer := None;
           modifyAnswer := None |}.

(** An update of the tags alone: the description is the one of the
    prior state. *)
Definition retagData : ResourceData :=
  data "ami-1" false "my image" [] false
       {["env" := "dev"]} (<["team" := "x"]> {["env" := "prod"]}).

Definition retagStart : St World :=
  start retagData (world [({| Images := [image "available"] |}, None)] []).

(** A hash code that tells the examples apart: the length of the
    string. *)
Definition lengthCode (s : string) : Z := Z.of_nat (String.length s).

End Scripted.


(** ** More predicates on runs *)

(** [c] takes the resource data along the relation [R]. *)
Definition moves {W A} (R : ResourceData -> ResourceData -> Prop) (c : M W A) : Prop :=
  forall st, R (rd st) (rd (c st).2).

(** [c] adds at most [n] events to the log, all of them satisfying [P]. *)
Definition emitsAtMost {W A} (P : Event -> Prop) (n : nat) (c : M W A) : Prop :=
  forall st, exists evs,
    trace (c st).2 = (trace st ++ evs)%list /\ Forall P evs /\ (length evs <= n)%nat.

(** The flag [manage_ebs_snapshots] and the new-resource mark are the
    ones of [d]. *)
Definition sameProvenance (d d' : ResourceData) : Prop :=
  d_manage_ebs_snapshots d' = d_manage_ebs_snapshots d /\
  d_IsNewResource d' = d_IsNewResource d.

(** A DescribeImages call for the image [id]. *)
Definition isDescribeImagesOf (id : string) (e : Event) : Prop :=
  match e with DescribeImagesCall imageId _ _ => imageId = id | _ => False end.

(** The identifier is the one of [d], or it was cleared. *)
Definition idKeptOrCleared (d d' : ResourceData) : Prop :=
  d_Id d' = d_Id d \/ d_Id d' = "".

Definition isDeregisterImage (e : Event) : Prop :=
  match e with DeregisterImageCall _ _ => True | _ => False end.

(** A block device mapping of an observed image carries every field
    that Read dereferences. *)
Definition populated (blockDev : BlockDeviceMapping) : Prop :=
  is_Some (DeviceName blockDev) /\
  match Ebs blockDev with
  | Some ebs =>
      is_Some (DeleteOnTermination ebs) /\ is_Some (Encrypted ebs) /\
      is_Some (VolumeSize ebs) /\ is_Some (VolumeType ebs)
  | None => is_Some (VirtualName blockDev)
  end.

(** A mapping of an observed image with an EBS part and the element of
    [ebs_block_device] that Read stores for it: a missing [Iops] reads
    as zero, a missing [SnapshotId] as the empty string. *)
Definition flattensTo (blockDev : BlockDeviceMapping) (e : EbsBlockDev) : Prop :=
  exists ebs,
    Ebs blockDev = Some ebs /\
    DeviceName blockDev = Some (device_name e) /\
    DeleteOnTermination ebs = Some (delete_on_termination e) /\
    Encrypted ebs = Some (encrypted e) /\
    iops e = Some (default 0 (Iops ebs)) /\
    snapshot_id e = default "" (SnapshotId ebs) /\
    VolumeSize ebs = volume_size e /\
    VolumeType ebs = Some (volume_type e).

(** A mapping without an EBS part and the element of
    [ephemeral_block_device] that Read stores for it. *)
Definition flattensToEphemeral (blockDev : BlockDeviceMapping) (e : EphemeralBlockDev) : Prop :=
  Ebs blockDev = None /\
  DeviceName blockDev = Some (eph_device_name e) /\
  VirtualName blockDev = Some (eph_virtual_name e).

(** An EBS element of the configuration and its mapping in the request:
    the snapshot is sent exactly when it is declared, the encrypted flag
    exactly when it is declared without a snapshot, and then as true. *)
Definition sendsSnapshotOrEncrypted (e : EbsBlockDev) (blockDev : BlockDeviceMapping) : Prop :=
  exists ebs,
    Ebs blockDev = Some ebs /\
    VirtualName blockDev = None /\
    DeleteOnTermination ebs = Some (delete_on_termination e) /\
    VolumeType ebs = Some (volume_type e) /\
    (forall s, SnapshotId ebs = Some s <-> snapshot_id e = s /\ s <> "") /\
    (forall b, Encrypted ebs = Some b <-> b = true /\ encrypted e = true /\ snapshot_id e = "") /\
    ~ (is_Some (SnapshotId ebs) /\ is_Some (Encrypted ebs)).

(** More remote sides and states for examples. *)
Module Faulty.

(** A remote side on which the image is never found. *)
Definition lost : EC2 Scripted.World :=
  {| ec2_RegisterImage := ec2_RegisterImage Scripted.client;
     ec2_CreateTags := ec2_CreateTags Scripted.client;
     ec2_DeleteTags := ec2_DeleteTags Scripted.client;
     ec2_DescribeImages := fun _ w => (({| Images := [] |}, Some Scripted.notFound), w);
     ec2_ModifyImageAttribute := ec2_ModifyImageAttribute Scripted.client;
     ec2_DeregisterImage := ec2_DeregisterImage Scripted.client;
     ec2_DeleteSnapshot := ec2_DeleteSnapshot Scripted.client |}.

(** A remote side on which the image stays pending. *)
Definition pendingForever : EC2 Scripted.World :=
  {| ec2_RegisterImage := ec2_RegisterImage Scripted.client;
     ec2_CreateTags := ec2_CreateTags Scripted.client;
     ec2_DeleteTags := ec2_DeleteTags Scripted.client;
     ec2_DescribeImages := fun _ w =>
       (({| Images := [Scripted.image "pending"] |}, None), w);
     ec2_ModifyImageAttribute := ec2_ModifyImageAttribute Scripted.client;
     ec2_DeregisterImage := ec2_DeregisterImage Scripted.client;
     ec2_DeleteSnapshot := ec2_DeleteSnapshot Scripted.client |}.

(** An image of the state that Read observes with two populated
    mappings. *)
Definition observedImage : Image :=
  {| State := Some "available";
     img_Name := Some "image";
     img_Description := Some "my image";
     img_ImageLocation := None;
     img_Architecture := Some "x86_64";
     img_KernelId := None;
     img_RamdiskId := None;
     img_RootDeviceName := Some "/dev/sda1";
     img_SriovNetSupport := Some "simple";
     img_VirtualizationType := Some "hvm";
     img_EnaSupport := Some true;
     img_BlockDeviceMappings :=
       [{| DeviceName := Some "/dev/sda1"; VirtualName := None;
           Ebs := Some {| DeleteOnTermination := Some true; Encrypted := Some false;
                          Iops := None; SnapshotId := Some "snap-1";
                          VolumeSize := Some 8; VolumeType := Some "gp2" |} |};
        {| DeviceName := Some "/dev/sdb"; VirtualName := Some "ephemeral0"; Ebs := None |}];
     img_Tags := {["env" := "prod"]} |}.

Definition observedStart : St Scripted.World :=
  Scripted.start (Scripted.data "ami-1" false "" [] false ∅ ∅)
    (Scripted.world [({| Images := [observedImage] |}, None);
                     ({| Images := [observedImage] |}, None)] []).

(** An existing image whose DescribeImages call is refused. *)
Definition deniedStart : St Scripted.World :=
  Scripted.start (Scripted.data "ami-1" false "" [] false ∅ ∅)
    (Scripted.world [({| Images := [] |}, Some Scripted.accessDenied)] []).

(** An existing image that the remote side reports as failed, and one
    it reports as deregistered. *)
Definition failedStart : St Scripted.World :=
  Scripted.start (Scripted.data "ami-1" false "" [] false ∅ ∅)
    (Scripted.world [({| Images := [Scripted.image "failed"] |}, None)] []).

Definition deregisteredStart : St Scripted.World :=
  Scripted.start (Scripted.data "ami-1" false "" [] false ∅ ∅)
    (Scripted.world [({| Images := [Scripted.image "deregistered"] |}, None)] []).

(** A registration that is refused. *)
Definition unregisteredStart : St Scripted.World :=
  Scripted.start (Scripted.data "" true "" [] false ∅ ∅)
    {| Scripted.registerAnswer := inl Scripted.accessDenied;
       Scripted.describeAnswers := [];
       Scripted.failingSnapshots := [];
       Scripted.deregisterAnswer := None;
       Scripted.createTagsAnswer := None;
       Scripted.deleteTagsAnswer := None;
       Scripted.modifyAnswer := None |}.

(** An update of the description whose ModifyImageAttribute call is
    refused. *)
Definition refusedModifyStart : St Scripted.World :=
  Scripted.start (Scripted.data "ami-1" false "my image" [] false ∅ ∅)
    {| Scripted.registerAnswer := inr "ami-1";
       Scripted.describeAnswers := [];
       Scripted.failingSnapshots := [];
       Scripted.deregisterAnswer := None;
       Scripted.createTagsAnswer := None;
       Scripted.deleteTagsAnswer := None;
       Scripted.modifyAnswer := Some Scripted.accessDenied |}.

(** A configuration with a snapshot on one device and the encrypted
    flag on another. *)
Definition mixedData : ResourceData :=
  Scripted.data "" true ""
    [Scripted.ebs "/dev/sda1" "snap-1" false None None;
     Scripted.ebs "/dev/sdb" "" true None (Some 8)] false ∅ ∅.

Definition mixedStart : St Scripted.World :=
  Scripted.start mixedData
    (Scripted.world [({| Images := [Scripted.image "available"] |}, None);
                     ({| Images := [Scripted.image "available"] |}, None)] []).

End Faulty.

(** * Properties *)

(** ** The monad *)

Section MonadFacts.

Context {W : Type}.

Lemma bind_unfold {A B} (c : M W A) (k : A -> M W B) st :
  (c ≫= k) st =
  match c st with
  | (Done a, st') => k a st'
  | (Failed e, st') => (Failed e, st')
  | (Panicked, st') => (Panicked, st')
  end.
Proof. reflexivity. Qed.

Lemma emits_ret {A} P (a : A) : emits (W:=W) P (ret a).
Proof. intros st. exists []. simpl. by rewrite app_nil_r. Qed.

Lemma emits_mret {A} P (a : A) : emits (W:=W) P (mret a).
Proof. apply emits_ret. Qed.

Lemma emits_fail {A} P e : emits (W:=W) (A:=A) P (fail e).
Proof. intros st. exists []. simpl. by rewrite app_nil_r. Qed.

Lemma emits_deref {A} P (p : option A) : emits (W:=W) P (deref p).
Proof. intros st. exists []. destruct p; simpl; by rewrite app_nil_r. Qed.

Lemma emits_getData P : emits (W:=W) P getData.
Proof. intros st. exists []. simpl. by rewrite app_nil_r. Qed.

Lemma emits_modifyData P f : emits (W:=W) P (modifyData f).
Proof. intros st. exists []. simpl. by rewrite app_nil_r. Qed.

Lemma emits_panic {A} P : emits (W:=W) (A:=A) P (fun st => (Panicked, st)).
Proof. intros st. exists []. simpl. by rewrite app_nil_r. Qed.

Lemma emits_bind {A B} P (c : M W A) (k : A -> M W B) :
  emits P c -> (forall a, emits P (k a)) -> emits P (c ≫= k).
Proof.
  intros Hc Hk st. rewrite bind_unfold.
  destruct (Hc st) as (evs & Ht & Hevs).
  destruct (c st) as [[a|e|] st1]; simpl in *; [|by eauto..].
  destruct (Hk a st1) as (evs' & Ht' & Hevs').
  exists (evs ++ evs')%list. split.
  - by rewrite Ht', Ht, app_assoc.
  - by apply Forall_app.
Qed.

Lemma emits_catch {A} P (c : M W A) : emits P c -> emits P (catch c).
Proof.
  intros Hc st. destruct (Hc st) as (evs & Ht & Hevs).
  unfold catch. destruct (c st) as [[a|e|] st1]; simpl in *; eauto.
Qed.

Lemma emits_foldM {A B} P (body : B -> A -> M W B) l :
  (forall acc x, emits P (body acc x)) -> forall acc, emits P (foldM body l acc).
Proof.
  intros Hbody. induction l as [|x l IH]; intros acc; simpl.
  - apply emits_ret.
  - apply emits_bind; auto.
Qed.

Lemma emits_weaken {A} (P Q : Event -> Prop) (c : M W A) :
  (forall e, P e -> Q e) -> emits P c -> emits Q c.
Proof.
  intros HPQ Hc st. destruct (Hc st) as (evs & Ht & Hevs).
  exists evs. split; [done|]. eapply Forall_impl; eauto.
Qed.

Lemma keeps_ret {A} (a : A) : keeps (W:=W) (ret a).
Proof. by intros st. Qed.

Lemma keeps_fail {A} e : keeps (W:=W) (A:=A) (fail e).
Proof. by intros st. Qed.

Lemma keeps_deref {A} (p : option A) : keeps (W:=W) (deref p).
Proof. intros st. by destruct p. Qed.

Lemma keeps_getData : keeps (W:=W) getData.
Proof. by intros st. Qed.

Lemma keeps_panic {A} : keeps (W:=W) (A:=A) (fun st => (Panicked, st)).
Proof. by intros st. Qed.

Lemma keeps_bind {A B} (c : M W A) (k : A -> M W B) :
  keeps c -> (forall a, keeps (k a)) -> keeps (c ≫= k).
Proof.
  intros Hc Hk st. rewrite bind_unfold. specialize (Hc st).
  destruct (c st) as [[a|e|] st1]; simpl in *; [|done..].
  by rewrite Hk.
Qed.

Lemma keeps_catch {A} (c : M W A) : keeps c -> keeps (catch c).
Proof.
  intros Hc st. specialize (Hc st). unfold catch.
  by destruct (c st) as [[a|e|] st1].
Qed.

Lemma keeps_foldM {A B} (body : B -> A -> M W B) l :
  (forall acc x, keeps (body acc x)) -> forall acc, keeps (foldM body l acc).
Proof.
  intros Hbody. induction l as [|x l IH]; intros acc; simpl.
  - apply keeps_ret.
  - apply keeps_bind; auto.
Qed.

Lemma nofail_ret {A} (a : A) : nofail (W:=W) (ret a).
Proof. by intros st e. Qed.

Lemma nofail_deref {A} (p : option A) : nofail (W:=W) (deref p).
Proof. intros st e. by destruct p. Qed.

Lemma nofail_bind {A B} (c : M W A) (k : A -> M W B) :
  nofail c -> (forall a, nofail (k a)) -> nofail (c ≫= k).
Proof.
  intros Hc Hk st e. rewrite bind_unfold. specialize (Hc st).
  destruct (c st) as [[a|e'|] st1]; simpl in *; [apply Hk| |done].
  by destruct (Hc e').
Qed.

Lemma nofail_foldM {A B} (body : B -> A -> M W B) l :
  (forall acc x, nofail (body acc x)) -> forall acc, nofail (foldM body l acc).
Proof.
  intros Hbody. induction l as [|x l IH]; intros acc; simpl.
  - apply nofail_ret.
  - apply nofail_bind; auto.
Qed.

Lemma nofail_getData : nofail (W:=W) getData.
Proof. by intros st e. Qed.

Lemma nofail_modifyData f : nofail (W:=W) (modifyData f).
Proof. by intros st e. Qed.

Lemma keeps_keepsNew {A} (c : M W A) : keeps c -> keepsNew c.
Proof. intros H st _. apply H. Qed.

Lemma keeps_failsClean {A} (c : M W A) : keeps c -> failsClean c.
Proof. intros H st _ e _. apply H. Qed.

Lemma nofail_failsClean {A} (c : M W A) : nofail c -> failsClean c.
Proof. intros H st _ e He. by destruct (H st e). Qed.

Lemma keepsNew_bind {A B} (c : M W A) (k : A -> M W B) :
  keepsNew c -> (forall a, keepsNew (k a)) -> keepsNew (c ≫= k).
Proof.
  intros Hc Hk st Hnew. rewrite bind_unfold. specialize (Hc st Hnew).
  destruct (c st) as [[a|e|] st1]; simpl in *; [|done..].
  rewrite Hk; [done|]. by rewrite Hc.
Qed.

Lemma failsClean_bind {A B} (c : M W A) (k : A -> M W B) :
  keepsNew c -> (forall a, failsClean (k a)) -> failsClean (c ≫= k).
Proof.
  intros Hc Hk st Hnew e. rewrite bind_unfold. specialize (Hc st Hnew).
  destruct (c st) as [[a|e'|] st1]; simpl in *; [|done..].
  intros He. rewrite (Hk a st1) with (e:=e); [done| |done]. by rewrite Hc.
Qed.

Lemma newEvents_app (st st' : St W) evs :
  trace st' = (trace st ++ evs)%list -> newEvents st st' = evs.
Proof. intros H. unfold newEvents. by rewrite H, drop_app_length. Qed.

End MonadFacts.

Create HintDb run.

#[global] Hint Resolve emits_ret emits_mret emits_fail emits_deref emits_getData
  emits_modifyData emits_panic emits_catch : run.
#[global] Hint Resolve keeps_ret keeps_fail keeps_deref keeps_getData keeps_panic
  keeps_catch : run.

(** Walks through a computation: one rule per construct. *)
Ltac walk :=
  repeat first
    [ solve [eauto with run]
    | match goal with
      | |- _ _ (_ ≫= _) => first [apply emits_bind | apply keeps_bind]; [|intros]
      | |- _ (_ ≫= _) => first [apply emits_bind | apply keeps_bind]; [|intros]
      | |- context [match ?x with _ => _ end] => destruct x
      end ].

(** ** The calls of the client *)

Section ResourceFacts.

Context {World : Type}.
Variable client : EC2 World.
Variable partition region : string.
Variable ignoreTags : gmap string string -> gmap string string.
Variable amiRootSnapshotId : Image -> string.
Variable attempts : Duration -> nat.
Variable rangeErrs : gmap string error -> list (string * error).
Variable ebsSetList : list EbsBlockDev -> list EbsBlockDev.
Variable ephemeralSetList : list EphemeralBlockDev -> list EphemeralBlockDev.

Local Abbreviation Read :=
  (resourceAwsAmiRead client partition region ignoreTags amiRootSnapshotId attempts
     ebsSetList ephemeralSetList).
Local Abbreviation Create :=
  (resourceAwsAmiCreate client partition region ignoreTags amiRootSnapshotId attempts
     ebsSetList ephemeralSetList).
Local Abbreviation Update :=
  (resourceAwsAmiUpdate client partition region ignoreTags amiRootSnapshotId attempts
     ebsSetList ephemeralSetList).
Local Abbreviation Delete := (resourceAwsAmiDelete client attempts rangeErrs).
Local Abbreviation WaitForAvailable := (resourceAwsAmiWaitForAvailable client attempts).
Local Abbreviation WaitForDestroy := (resourceAwsAmiWaitForDestroy client attempts).

Lemma DescribeImages_run id (st : St World) out err w :
  ec2_DescribeImages client id (remote st) = ((out, err), w) ->
  DescribeImages client id st = (Done (out, err), emit (DescribeImagesCall id out err) w st).
Proof. intros H. unfold DescribeImages. by rewrite H. Qed.

Lemma DeregisterImage_run id (st : St World) err w :
  ec2_DeregisterImage client id (remote st) = (err, w) ->
  DeregisterImage client id st = (Done err, emit (DeregisterImageCall id err) w st).
Proof. intros H. unfold DeregisterImage. by rewrite H. Qed.

Lemma RegisterImage_run req (st : St World) res w :
  ec2_RegisterImage client req (remote st) = (res, w) ->
  RegisterImage client req st = (Done res, emit (RegisterImageCall req res) w st).
Proof. intros H. unfold RegisterImage. by rewrite H. Qed.

Lemma CreateTags_run id tags (st : St World) err w :
  ec2_CreateTags client id tags (remote st) = (err, w) ->
  CreateTags client id tags st = (Done err, emit (CreateTagsCall id tags err) w st).
Proof. intros H. unfold CreateTags. by rewrite H. Qed.

Lemma emits_DescribeImages id : emits isDescribeImages (DescribeImages client id).
Proof.
  intros st. unfold DescribeImages.
  destruct (ec2_DescribeImages client id (remote st)) as [[out err] w]. simpl.
  eexists. split; [done|]. by repeat constructor.
Qed.

Lemma keeps_DescribeImages id : keeps (DescribeImages client id).
Proof.
  intros st. unfold DescribeImages.
  by destruct (ec2_DescribeImages client id (remote st)) as [[out err] w].
Qed.

Lemma emits_DeleteSnapshot snapshotId :
  emits isDeleteSnapshot (DeleteSnapshot client snapshotId).
Proof.
  intros st. unfold DeleteSnapshot.
  destruct (ec2_DeleteSnapshot client snapshotId (remote st)) as [err w]. simpl.
  eexists. split; [done|]. by repeat constructor.
Qed.

Lemma keeps_DeleteSnapshot snapshotId : keeps (DeleteSnapshot client snapshotId).
Proof.
  intros st. unfold DeleteSnapshot.
  by destruct (ec2_DeleteSnapshot client snapshotId (remote st)) as [err w].
Qed.

Lemma emits_CreateTags id tags : emits isTagCall (CreateTags client id tags).
Proof.
  intros st. unfold CreateTags.
  destruct (ec2_CreateTags client id tags (remote st)) as [err w]. simpl.
  eexists. split; [done|]. by repeat constructor.
Qed.

Lemma keeps_CreateTags id tags : keeps (CreateTags client id tags).
Proof.
  intros st. unfold CreateTags.
  by destruct (ec2_CreateTags client id tags (remote st)) as [err w].
Qed.

Lemma emits_DeleteTags id keys : emits isTagCall (DeleteTags client id keys).
Proof.
  intros st. unfold DeleteTags.
  destruct (ec2_DeleteTags client id keys (remote st)) as [err w]. simpl.
  eexists. split; [done|]. by repeat constructor.
Qed.

Lemma keeps_DeleteTags id keys : keeps (DeleteTags client id keys).
Proof.
  intros st. unfold DeleteTags.
  by destruct (ec2_DeleteTags client id keys (remote st)) as [err w].
Qed.

Lemma emits_ModifyImageAttribute id description :
  emits isModifyImageAttribute (ModifyImageAttribute client id description).
Proof.
  intros st. unfold ModifyImageAttribute.
  destruct (ec2_ModifyImageAttribute client id description (remote st)) as [err w]. simpl.
  eexists. split; [done|]. by repeat constructor.
Qed.

Hint Resolve emits_DescribeImages emits_DeleteSnapshot emits_CreateTags emits_DeleteTags
  emits_ModifyImageAttribute : run.
Hint Resolve keeps_DescribeImages keeps_DeleteSnapshot keeps_CreateTags keeps_DeleteTags
  : run.

(** ** Waiting and reading: the calls they issue, the data they touch *)

Lemma emits_AMIStateRefreshFunc id : emits isDescribeImages (AMIStateRefreshFunc client id).
Proof. unfold AMIStateRefreshFunc. walk. Qed.

Lemma keeps_AMIStateRefreshFunc id : keeps (AMIStateRefreshFunc client id).
Proof. unfold AMIStateRefreshFunc. walk. Qed.

Lemma emits_WaitForState_loop P (conf : @StateChangeConf World) n :
  emits P (Refresh conf) -> emits P (WaitForState_loop conf n).
Proof. intros H. induction n; simpl; walk. Qed.

Lemma keeps_WaitForState_loop (conf : @StateChangeConf World) n :
  keeps (Refresh conf) -> keeps (WaitForState_loop conf n).
Proof. intros H. induction n; simpl; walk. Qed.

Lemma emits_WaitForAvailable t id : emits isDescribeImages (WaitForAvailable t id).
Proof.
  unfold resourceAwsAmiWaitForAvailable, WaitForState.
  apply emits_bind; [|intros; walk].
  apply emits_catch, emits_WaitForState_loop, emits_AMIStateRefreshFunc.
Qed.

Lemma keeps_WaitForAvailable t id : keeps (WaitForAvailable t id).
Proof.
  unfold resourceAwsAmiWaitForAvailable, WaitForState.
  apply keeps_bind; [|intros; walk].
  apply keeps_catch, keeps_WaitForState_loop, keeps_AMIStateRefreshFunc.
Qed.

Lemma emits_WaitForDestroy t id : emits isDescribeImages (WaitForDestroy t id).
Proof.
  unfold resourceAwsAmiWaitForDestroy, WaitForState.
  apply emits_bind; [|intros; walk].
  apply emits_catch, emits_WaitForState_loop, emits_AMIStateRefreshFunc.
Qed.

Lemma keeps_WaitForDestroy t id : keeps (WaitForDestroy t id).
Proof.
  unfold resourceAwsAmiWaitForDestroy, WaitForState.
  apply keeps_bind; [|intros; walk].
  apply keeps_catch, keeps_WaitForState_loop, keeps_AMIStateRefreshFunc.
Qed.

Lemma emits_readAttempt id : emits isDescribeImages (readAttempt client id).
Proof. unfold readAttempt. walk. Qed.

Lemma emits_Retry_loop {R} P (f : M World (R * option RetryError)) n :
  emits P f -> emits P (Retry_loop f n).
Proof. intros H. induction n; simpl; walk. Qed.

Lemma emits_flattenBlockDev P acc blockDev : emits (W:=World) P (flattenBlockDev acc blockDev).
Proof. unfold flattenBlockDev. walk. Qed.

Lemma emits_Read : emits isDescribeImages Read.
Proof.
  unfold resourceAwsAmiRead, Retry.
  apply emits_bind; [walk|intros d].
  apply emits_bind; [apply emits_Retry_loop, emits_readAttempt|intros [res err]].
  apply emits_bind; [walk|intros [res' err']].
  destruct err'; [walk|].
  destruct (bool_decide _); [walk|].
  apply emits_bind; [walk|intros image].
  apply emits_bind; [walk|intros state].
  apply emits_bind.
  { destruct (bool_decide _); [|walk].
    apply emits_bind; [apply emits_WaitForAvailable|intros]. walk. }
  intros [image' state'].
  destruct (bool_decide _); [walk|].
  destruct (bool_decide _); [walk|].
  apply emits_bind; [walk|intros d'].
  apply emits_bind; [walk|intros _].
  apply emits_bind; [|intros [? ?]; walk].
  apply emits_foldM. intros. apply emits_flattenBlockDev.
Qed.

(** ** Create: the request *)

Lemma ebsBlockDevMapping_conflict e :
  snapshotAndEncrypted e -> ebsBlockDevMapping e = inl conflictError.
Proof.
  intros [Hs He]. unfold ebsBlockDevMapping.
  rewrite bool_decide_true by done. by rewrite He.
Qed.

Lemma ebsBlockDevMapping_inl e err :
  ebsBlockDevMapping e = inl err -> err = conflictError /\ snapshotAndEncrypted e.
Proof.
  unfold ebsBlockDevMapping, snapshotAndEncrypted.
  case_bool_decide; destruct (encrypted e); intros [= <-]; auto.
Qed.

Lemma ebsBlockDevMapping_inr e blockDev :
  ebsBlockDevMapping e = inr blockDev -> sendsNumerics e blockDev.
Proof.
  unfold ebsBlockDevMapping, sendsNumerics, aws_Int64.
  intros H.
  assert (exists ebs, Ebs blockDev = Some ebs /\
            DeviceName blockDev = Some (device_name e) /\
            Iops ebs = match iops e with
                       | Some iop => if bool_decide (iop ≠ 0) then Some iop else None
                       | None => None
                       end /\
            VolumeSize ebs = match volume_size e with
                             | Some s => if bool_decide (s ≠ 0) then Some s else None
                             | None => None
                             end) as (ebs & HE & HD & HI & HV).
  { repeat case_bool_decide; destruct (encrypted e); simplify_eq; simpl; eauto. }
  exists ebs. rewrite HI, HV. split; [done|]. split; [done|]. split; intros v.
  - destruct (iops e) as [iop|]; [case_bool_decide|]; naive_solver.
  - destruct (volume_size e) as [sz|]; [case_bool_decide|]; naive_solver.
Qed.

(** The first loop of Create stops at the first element that sets both a
    snapshot and the encrypted flag, and has touched nothing by then. *)
Lemma ebs_loop_conflict (l : list EbsBlockDev) acc (st : St World) :
  Exists snapshotAndEncrypted l ->
  foldM (fun acc ebsBlockDev =>
           match ebsBlockDevMapping ebsBlockDev with
           | inl err => fail err
           | inr blockDev => ret (acc ++ [blockDev])%list
           end) l acc st = (Failed conflictError, st).
Proof.
  revert acc. induction l as [|e l IH]; intros acc HE.
  - by apply Exists_nil in HE.
  - simpl. rewrite bind_unfold.
    destruct (ebsBlockDevMapping e) as [err|blockDev] eqn:Hm.
    + apply ebsBlockDevMapping_inl in Hm as [-> _]. done.
    + simpl. apply IH. apply Exists_cons in HE as [HE|HE]; [|done].
      apply ebsBlockDevMapping_conflict in HE. congruence.
Qed.

Lemma ebs_loop_done (l : list EbsBlockDev) acc (st st' : St World) mappings :
  foldM (fun acc ebsBlockDev =>
           match ebsBlockDevMapping ebsBlockDev with
           | inl err => fail err
           | inr blockDev => ret (acc ++ [blockDev])%list
           end) l acc st = (Done mappings, st') ->
  st' = st /\ exists ebsMappings,
    mappings = (acc ++ ebsMappings)%list /\ Forall2 sendsNumerics l ebsMappings.
Proof.
  revert acc. induction l as [|e l IH]; intros acc; simpl.
  - intros [= <- <-]. split; [done|]. exists []. by rewrite app_nil_r.
  - rewrite bind_unfold.
    destruct (ebsBlockDevMapping e) as [err|blockDev] eqn:Hm; [done|]. simpl.
    intros H. apply IH in H as [-> (ebsMappings & -> & HF)]. split; [done|].
    exists (blockDev :: ebsMappings). split.
    + by rewrite <- app_assoc.
    + constructor; [by apply ebsBlockDevMapping_inr|done].
Qed.

Lemma ephemeral_loop (l : list EphemeralBlockDev) acc (st : St World) :
  foldM (fun acc ephemeralBlockDev =>
           ret (acc ++ [ephemeralBlockDevMapping ephemeralBlockDev])%list) l acc st
  = (Done (acc ++ map ephemeralBlockDevMapping l)%list, st).
Proof.
  revert acc. induction l as [|e l IH]; intros acc; simpl.
  - by rewrite app_nil_r.
  - rewrite bind_unfold. simpl. rewrite IH. by rewrite <- app_assoc.
Qed.

Lemma blockDeviceMappings_done d (st st' : St World) mappings :
  blockDeviceMappings d st = (Done mappings, st') ->
  st' = st /\ exists ebsMappings,
    mappings = (ebsMappings ++ map ephemeralBlockDevMapping (d_ephemeral_block_device d))%list /\
    Forall2 sendsNumerics (d_ebs_block_device d) ebsMappings.
Proof.
  unfold blockDeviceMappings. rewrite bind_unfold.
  destruct (foldM _ (d_ebs_block_device d) [] st) as [[m|e|] st1] eqn:Hl; [|done..].
  apply ebs_loop_done in Hl as [-> (ebsMappings & -> & HF)].
  rewrite ephemeral_loop. intros [= <- <-]. eauto.
Qed.

Lemma ebs_loop_state (l : list EbsBlockDev) acc (st : St World) :
  (foldM (fun acc ebsBlockDev =>
            match ebsBlockDevMapping ebsBlockDev with
            | inl err => fail err
            | inr blockDev => ret (acc ++ [blockDev])%list
            end) l acc st).2 = st.
Proof.
  revert acc. induction l as [|x l IH]; intros acc; simpl; [done|].
  rewrite bind_unfold. destruct (ebsBlockDevMapping x); simpl; [done|apply IH].
Qed.

Lemma blockDeviceMappings_state d (st : St World) :
  (blockDeviceMappings d st).2 = st.
Proof.
  unfold blockDeviceMappings. rewrite bind_unfold.
  pose proof (ebs_loop_state (d_ebs_block_device d) [] st) as Hl.
  destruct (foldM _ (d_ebs_block_device d) [] st) as [[m|e|] st1];
    simpl in Hl; subst st1; [|done..].
  by rewrite ephemeral_loop.
Qed.

(** Read on a resource marked new: an error leaves the resource data as
    it was; the identifier is cleared only on the paths that return nil. *)
Lemma keepsNew_readAttempt id : keepsNew (readAttempt client id).
Proof.
  intros st Hnew. unfold readAttempt. rewrite bind_unfold.
  pose proof (keeps_DescribeImages id st) as Hk.
  destruct (DescribeImages client id st) as [[[res err]|e|] st1]; simpl in *; [|done..].
  destruct err as [err|]; [|done].
  destruct (isAWSErr err _); [|done].
  rewrite bind_unfold. simpl. by rewrite Hk, Hnew.
Qed.

Lemma keepsNew_Retry_loop {R} (f : M World (R * option RetryError)) n :
  keepsNew f -> keepsNew (Retry_loop f n).
Proof.
  intros H. induction n; simpl.
  - apply keepsNew_bind; [done|].
    intros [res [[err|err]|]]; apply keeps_keepsNew, keeps_ret.
  - apply keepsNew_bind; [done|].
    intros [res [[err|err]|]]; [apply IHn|apply keeps_keepsNew, keeps_ret..].
Qed.

Lemma nofail_flattenBlockDev acc blockDev :
  nofail (W:=World) (flattenBlockDev acc blockDev).
Proof.
  unfold flattenBlockDev. destruct acc as [ebsBlockDevs ephemeralBlockDevs].
  destruct (Ebs blockDev);
    repeat (apply nofail_bind; [apply nofail_deref|intros]); apply nofail_ret.
Qed.

Lemma failsClean_Read : failsClean Read.
Proof.
  unfold resourceAwsAmiRead, Retry.
  apply failsClean_bind; [apply keeps_keepsNew, keeps_getData|intros d].
  apply failsClean_bind;
    [apply keepsNew_Retry_loop, keepsNew_readAttempt|intros [res err]].
  apply failsClean_bind.
  { apply keeps_keepsNew. destruct (isResourceTimeoutError err); walk. }
  intros [res' err'].
  destruct err'; [apply keeps_failsClean, keeps_fail|].
  destruct (bool_decide _); [apply nofail_failsClean, nofail_modifyData|].
  apply failsClean_bind; [apply keeps_keepsNew, keeps_deref|intros image].
  apply failsClean_bind; [apply keeps_keepsNew, keeps_deref|intros state].
  apply failsClean_bind.
  { apply keeps_keepsNew. destruct (bool_decide _); [|walk].
    apply keeps_bind; [apply keeps_WaitForAvailable|intros]. walk. }
  intros [image' state'].
  destruct (bool_decide _); [apply nofail_failsClean, nofail_modifyData|].
  destruct (bool_decide _); [apply keeps_failsClean, keeps_fail|].
  apply nofail_failsClean.
  apply nofail_bind; [apply nofail_getData|intros d'].
  apply nofail_bind; [apply nofail_modifyData|intros _].
  apply nofail_bind; [|intros [? ?]; apply nofail_modifyData].
  apply nofail_foldM. intros. apply nofail_flattenBlockDev.
Qed.

Lemma keeps_Ec2CreateTags id tags : keeps (Ec2CreateTags client id tags).
Proof. unfold Ec2CreateTags. walk. Qed.

Lemma emits_Ec2CreateTags id tags : emits isTagCall (Ec2CreateTags client id tags).
Proof. unfold Ec2CreateTags. walk. Qed.

(** What Create does once the request is built. *)
Lemma Create_unfold (st : St World) mappings :
  blockDeviceMappings (rd st) st = (Done mappings, st) ->
  Create st =
  (res ← RegisterImage client (registerImageInput (rd st) mappings);
   match res with
   | inl err => fail err
   | inr id =>
       modifyData (SetId id);;
       (if bool_decide (0 < size (d_tags (rd st)))%nat then
          r ← catch (Ec2CreateTags client id (d_tags (rd st)));
          match r with
          | inl err => fail (ErrorString ("error adding tags: " +:+ Error err))
          | inr _ => ret tt
          end
        else ret tt);;
       WaitForAvailable TimeoutCreate id;;
       Read
   end) st.
Proof.
  intros Hm. unfold resourceAwsAmiCreate at 1.
  rewrite bind_unfold. simpl. rewrite bind_unfold. by rewrite Hm.
Qed.

(** The steps of Create after RegisterImage issue tag calls and
    DescribeImages calls only. *)
Lemma emits_Create_tail id (tags : gmap string string) :
  emits (fun e => isTagCall e \/ isDescribeImages e)
    (modifyData (SetId id);;
     (if bool_decide (0 < size tags)%nat then
        r ← catch (Ec2CreateTags client id tags);
        match r with
        | inl err => fail (ErrorString ("error adding tags: " +:+ Error err))
        | inr _ => ret tt
        end
      else ret tt);;
     WaitForAvailable TimeoutCreate id;;
     Read).
Proof.
  apply emits_bind; [walk|intros _].
  apply emits_bind.
  { destruct (bool_decide _); [|walk].
    apply emits_bind; [|intros; walk].
    apply emits_catch. eapply emits_weaken; [|apply emits_Ec2CreateTags]. tauto. }
  intros _. apply emits_bind.
  - eapply emits_weaken; [|apply emits_WaitForAvailable]. tauto.
  - intros _. eapply emits_weaken; [|apply emits_Read]. tauto.
Qed.

(** Every RegisterImage call that Create logs carries the request built
    from the configuration. *)
Lemma Create_request (st : St World) req res :
  In (RegisterImageCall req res) (newEvents st (Create st).2) ->
  exists mappings,
    blockDeviceMappings (rd st) st = (Done mappings, st) /\
    req = registerImageInput (rd st) mappings.
Proof.
  pose proof (blockDeviceMappings_state (rd st) st) as Hst.
  destruct (blockDeviceMappings (rd st) st) as [[mappings|e|] st1] eqn:Hm;
    simpl in Hst; subst st1.
  - rewrite (Create_unfold st mappings Hm). rewrite bind_unfold.
    unfold RegisterImage at 1.
    destruct (ec2_RegisterImage client _ (remote st)) as [r w] eqn:Hr.
    destruct r as [err|id].
    + simpl. unfold newEvents. simpl. rewrite drop_app_length.
      intros [[= <- <-]|[]]. eauto.
    + destruct (emits_Create_tail id (d_tags (rd st))
                  (emit (RegisterImageCall (registerImageInput (rd st) mappings) (inr id)) w st))
        as (evs & Ht & Hevs).
      rewrite (newEvents_app st _ (RegisterImageCall (registerImageInput (rd st) mappings) (inr id) :: evs)).
      * intros [[= <- <-]|Hin]; [eauto|].
        rewrite Forall_forall in Hevs. apply list_elem_of_In, Hevs in Hin as [[]|[]].
      * rewrite Ht. simpl. by rewrite <- app_assoc.
  - unfold resourceAwsAmiCreate. rewrite bind_unfold. simpl. rewrite bind_unfold, Hm.
    unfold newEvents. simpl. by rewrite drop_all.
  - unfold resourceAwsAmiCreate. rewrite bind_unfold. simpl. rewrite bind_unfold, Hm.
    unfold newEvents. simpl. by rewrite drop_all.
Qed.

(** ** The claims about Create *)

(** Claim C1.  When some element of [ebs_block_device] has a non-empty
    snapshot id and the encrypted flag set, Create returns the error
    "can't set both 'snapshot_id' and 'encrypted'" in the state it
    started from: the log is unchanged, so no RegisterImage, tag or
    DescribeImages call was issued, and the resource data is unchanged. *)
Theorem Create_snapshot_and_encrypted_fails_before_any_call (st : St World) :
  Exists snapshotAndEncrypted (d_ebs_block_device (rd st)) ->
  Create st = (Failed conflictError, st).
Proof.
  intros HE. unfold resourceAwsAmiCreate, blockDeviceMappings.
  rewrite bind_unfold. simpl. rewrite !bind_unfold.
  by rewrite ebs_loop_conflict.
Qed.

(** Claim C8.  The request of every RegisterImage call that Create
    issues lists one mapping per element of [ebs_block_device], in
    order, before the ephemeral ones; the mapping of an element carries
    [Iops] exactly when the declared iops is present and not zero, and
    [VolumeSize] exactly when the declared volume size is present and
    not zero, each with the declared value. *)
Theorem Create_request_omits_zero_iops_and_volume_size (st : St World) req res :
  In (RegisterImageCall req res) (newEvents st (Create st).2) ->
  exists ebsMappings,
    req_BlockDeviceMappings req =
      (ebsMappings ++ map ephemeralBlockDevMapping (d_ephemeral_block_device (rd st)))%list /\
    Forall2 sendsNumerics (d_ebs_block_device (rd st)) ebsMappings.
Proof.
  intros Hin. apply Create_request in Hin as (mappings & Hm & ->).
  apply blockDeviceMappings_done in Hm as [_ (ebsMappings & -> & HF)].
  by exists ebsMappings.
Qed.

(** Claim C6.  Create is run on a resource marked new.  Once
    RegisterImage has answered with an identifier, the identifier is
    recorded at once; then the declared tags, if any, are applied, and an
    error there ends Create; then Create waits for the image to become
    available, which ends Create on an error, and only then runs Read, in
    the state the wait left.  Whenever Create returns an error after the
    registration, the identifier is still recorded. *)
Theorem Create_records_id_then_tags_wait_read (st : St World) mappings id w :
  d_IsNewResource (rd st) = true ->
  blockDeviceMappings (rd st) st = (Done mappings, st) ->
  ec2_RegisterImage client (registerImageInput (rd st) mappings) (remote st) = (inr id, w) ->
  let registered := RegisterImageCall (registerImageInput (rd st) mappings) (inr id) in
  let tags := d_tags (rd st) in
  let waitThenRead (s : St World) :=
    match WaitForAvailable TimeoutCreate id s with
    | (Done _, s') => Read s'
    | (Failed err, s') => (Failed err, s')
    | (Panicked, s') => (Panicked, s')
    end in
  (size tags = 0%nat ->
   Create st = waitThenRead (Build_St (SetId id (rd st)) w (trace st ++ [registered]))) /\
  (size tags <> 0%nat ->
   forall tagErr w',
     ec2_CreateTags client id tags w = (tagErr, w') ->
     let tagged :=
       Build_St (SetId id (rd st)) w'
         (trace st ++ [registered; CreateTagsCall id tags tagErr]) in
     Create st =
       match tagErr with
       | Some err => (Failed (ErrorString ("error adding tags: " +:+ Error err)), tagged)
       | None => waitThenRead tagged
       end) /\
  (forall err st', Create st = (Failed err, st') -> d_Id (rd st') = id).
Proof.
  intros Hnew Hm Hr. simpl. rewrite (Create_unfold st mappings Hm).
  rewrite bind_unfold, (RegisterImage_run _ _ _ _ Hr). rewrite bind_unfold. simpl.
  unfold emit. simpl. split; [|split].
  - intros Hz. rewrite bind_unfold.
    rewrite bool_decide_false by lia. simpl. by rewrite bind_unfold.
  - intros Hz tagErr w' Ht. rewrite bind_unfold.
    rewrite bool_decide_true by lia. rewrite bind_unfold.
    unfold catch, Ec2CreateTags. rewrite bind_unfold.
    erewrite CreateTags_run by exact Ht. unfold emit. simpl.
    rewrite <- app_assoc. simpl.
    destruct tagErr as [err|]; simpl; [done|]. by rewrite bind_unfold.
  - intros err st' Hc.
    assert (failsClean
              ((if bool_decide (0 < size (d_tags (rd st)))%nat then
                  r ← catch (Ec2CreateTags client id (d_tags (rd st)));
                  match r with
                  | inl err => fail (ErrorString ("error adding tags: " +:+ Error err))
                  | inr _ => ret tt
                  end
                else ret tt);;
               WaitForAvailable TimeoutCreate id;;
               Read)) as Hclean.
    { apply failsClean_bind.
      - apply keeps_keepsNew. destruct (bool_decide _); [|walk].
        apply keeps_bind; [apply keeps_catch, keeps_Ec2CreateTags|intros; walk].
      - intros _. apply failsClean_bind; [apply keeps_keepsNew, keeps_WaitForAvailable|].
        intros _. apply failsClean_Read. }
    specialize (Hclean (Build_St (SetId id (rd st)) w
                          (trace st ++ [RegisterImageCall (registerImageInput (rd st) mappings)
                                          (inr id)])) Hnew err).
    rewrite Hc in Hclean. simpl in Hclean. by rewrite Hclean.
Qed.

(** ** The claims about Delete *)

(** Claim C10.  When DeregisterImage answers with an error, Delete
    returns that error at once: the only call logged is the
    deregistration, so no snapshot deletion is attempted, whatever
    [manage_ebs_snapshots] says, and no wait is performed; the resource
    data is the one Delete started from. *)
Theorem Delete_deregister_error_returns_at_once (st : St World) err w :
  ec2_DeregisterImage client (d_Id (rd st)) (remote st) = (Some err, w) ->
  Delete st =
    (Failed err,
     Build_St (rd st) w (trace st ++ [DeregisterImageCall (d_Id (rd st)) (Some err)])).
Proof.
  intros Hd. unfold resourceAwsAmiDelete. rewrite bind_unfold. simpl.
  rewrite bind_unfold. by rewrite (DeregisterImage_run _ _ _ _ Hd).
Qed.

(** ** Waiting *)

Lemma Retry_loop_first {R} (f : M World (R * option RetryError)) n st res st1 :
  f st = (Done (res, None), st1) -> Retry_loop f n st = (Done (res, None), st1).
Proof. intros H. destruct n; simpl; by rewrite bind_unfold, H. Qed.

(** The wait returns a record only from a probe that reported a target
    status. *)
Lemma WaitForState_loop_Done (conf : @StateChangeConf World) n st res st' :
  WaitForState_loop conf n st = (Done res, st') ->
  exists st0 state, Refresh conf st0 = (Done (res, state), st') /\ In state (Target conf).
Proof.
  revert st. induction n as [|n IH]; intros st; simpl; rewrite bind_unfold;
    destruct (Refresh conf st) as [[[r state]|e|] st1] eqn:HR; try done;
    repeat case_bool_decide; try done.
  - intros [= <- <-]. exists st, state. by rewrite <- list_elem_of_In.
  - intros [= <- <-]. exists st, state. by rewrite <- list_elem_of_In.
  - apply IH.
Qed.

Lemma WaitForDestroy_Done t id st st' :
  WaitForDestroy t id st = (Done tt, st') ->
  exists st0 res, AMIStateRefreshFunc client id st0 = (Done (res, "destroyed"), st').
Proof.
  unfold resourceAwsAmiWaitForDestroy, WaitForState. rewrite bind_unfold. unfold catch.
  destruct (WaitForState_loop _ _ st) as [[res|e|] st1] eqn:HW; [|done..].
  intros [= <-]. apply WaitForState_loop_Done in HW as (st0 & state & HR & Hin).
  simpl in HR, Hin. destruct Hin as [<-|[]]. eauto.
Qed.

(** Claim C3 (as amended).  In the wait for availability a probe that
    reports "not found" is given the synthetic status "destroyed", for
    every resource, marked new or not; "destroyed" is neither pending
    nor the target of that wait, so the wait ends with this first probe
    and an error that names the unexpected status. *)
Theorem WaitForAvailable_not_found_is_destroyed_and_fails (st : St World) t id out e w :
  ec2_DescribeImages client id (remote st) = ((out, Some e), w) ->
  isAWSErr e "InvalidAMIID.NotFound" = true ->
  let probed := Build_St (rd st) w (trace st ++ [DescribeImagesCall id out (Some e)]) in
  AMIStateRefreshFunc client id st
    = (Done (RefreshOutput {| Images := [] |}, "destroyed"), probed) /\
  ~ In "destroyed" (Pending (availableConf client t id)) /\
  ~ In "destroyed" (Target (availableConf client t id)) /\
  WaitForAvailable t id st
    = (Failed (ErrorString ("Error waiting for AMI (" +:+ id +:+ ") to be ready: "
                            +:+ Error (UnexpectedStateError "destroyed"))), probed).
Proof.
  intros Hd He. simpl.
  assert (AMIStateRefreshFunc client id st
          = (Done (RefreshOutput {| Images := [] |}, "destroyed"),
             Build_St (rd st) w (trace st ++ [DescribeImagesCall id out (Some e)]))) as HR.
  { unfold AMIStateRefreshFunc. rewrite bind_unfold, (DescribeImages_run _ _ _ _ _ Hd).
    by rewrite He. }
  split; [done|]. split; [by intros [?|[]]|]. split; [by intros [?|[]]|].
  unfold resourceAwsAmiWaitForAvailable, WaitForState. rewrite bind_unfold. unfold catch.
  destruct (attempts _); simpl; rewrite bind_unfold; simpl; by rewrite HR.
Qed.

(** ** Read *)

(** Claim C7.  Read clears the identifier and returns nil, not an error,
    when DescribeImages answers "not found" for a resource that is not
    marked new, when it answers without error and without exactly one
    image, and when the one image it answers is deregistered. *)
Theorem Read_absent_clears_id_and_succeeds (st : St World) out err w :
  ec2_DescribeImages client (d_Id (rd st)) (remote st) = ((out, err), w) ->
  let cleared :=
    Build_St (SetId "" (rd st)) w
      (trace st ++ [DescribeImagesCall (d_Id (rd st)) out err]) in
  (d_IsNewResource (rd st) = false ->
   (exists e, err = Some e /\ isAWSErr e "InvalidAMIID.NotFound" = true) ->
   length (Images out) <> 1%nat ->
   Read st = (Done tt, cleared)) /\
  (err = None -> length (Images out) <> 1%nat -> Read st = (Done tt, cleared)) /\
  (err = None ->
   forall image, Images out = [image] -> State image = Some ImageStateDeregistered ->
   Read st = (Done tt, cleared)).
Proof.
  intros Hd. simpl. split; [|split].
  - intros Hnew (e & -> & He) Hlen.
    unfold resourceAwsAmiRead, Retry. rewrite bind_unfold. simpl. rewrite bind_unfold.
    erewrite Retry_loop_first; cycle 1.
    { unfold readAttempt. rewrite bind_unfold, (DescribeImages_run _ _ _ _ _ Hd).
      rewrite He. rewrite bind_unfold. simpl. rewrite Hnew. rewrite bind_unfold. done. }
    rewrite bind_unfold. simpl. by rewrite bool_decide_true.
  - intros -> Hlen.
    unfold resourceAwsAmiRead, Retry. rewrite bind_unfold. simpl. rewrite bind_unfold.
    erewrite Retry_loop_first; cycle 1.
    { unfold readAttempt. by rewrite bind_unfold, (DescribeImages_run _ _ _ _ _ Hd). }
    rewrite bind_unfold. simpl. by rewrite bool_decide_true.
  - intros -> image Himg Hstate.
    unfold resourceAwsAmiRead, Retry. rewrite bind_unfold. simpl. rewrite bind_unfold.
    erewrite Retry_loop_first; cycle 1.
    { unfold readAttempt. by rewrite bind_unfold, (DescribeImages_run _ _ _ _ _ Hd). }
    rewrite bind_unfold. simpl. rewrite Himg. simpl.
    rewrite !bind_unfold. simpl. rewrite Hstate. simpl. by rewrite bind_unfold.
Qed.

(** ** Delete: the cascade over the snapshots *)

(** The loop attempts every non-empty snapshot id, in order, whatever
    the earlier deletions answered, and collects exactly the ids whose
    deletion failed. *)
Lemma cascade_loop (l : list EbsBlockDev) (errs0 : gmap string error) (st : St World) :
  exists errs st' evs,
    foldM (deleteSnapshotOf client) l errs0 st = (Done errs, st') /\
    rd st' = rd st /\
    trace st' = (trace st ++ evs)%list /\
    Forall isDeleteSnapshot evs /\
    attemptedSnapshots evs = filter (fun s => s ≠ "") (map snapshot_id l) /\
    (forall s, s ∈ dom errs <-> s ∈ dom errs0 \/ failedSnapshot s evs).
Proof.
  clear ebsSetList ephemeralSetList.
  revert errs0 st. induction l as [|x l IH]; intros errs0 st; simpl.
  - exists errs0, st, []. rewrite app_nil_r. repeat split; try done.
    + by left.
    + intros [?|[e []]]. done.
  - rewrite bind_unfold. unfold deleteSnapshotOf at 1.
    rewrite filter_cons. case_bool_decide as Hs; case_decide; try done.
    + rewrite bind_unfold. unfold DeleteSnapshot at 1.
      destruct (ec2_DeleteSnapshot client (snapshot_id x) (remote st)) as [err w] eqn:Hd.
      simpl.
      set (st1 := emit (DeleteSnapshotCall (snapshot_id x) err) w st).
      destruct err as [err|]; simpl.
      * destruct (IH (<[snapshot_id x := err]> errs0) st1)
          as (errs & st' & evs & HF & Hrd & Ht & Hall & Hatt & Hdom).
        exists errs, st', (DeleteSnapshotCall (snapshot_id x) (Some err) :: evs).
        rewrite HF, Hrd, Ht. simpl. rewrite <- app_assoc, Hatt.
        repeat split; try done; [by constructor|..].
        -- intros Hin. apply Hdom in Hin as [Hin|(e & Hin)].
           ++ rewrite dom_insert_L in Hin. apply elem_of_union in Hin as [Hin|Hin]; [|by left].
              apply elem_of_singleton in Hin as ->. right. exists err. by left.
           ++ right. exists e. by right.
        -- intros [Hin|(e & [Heq|Hin])]; apply Hdom.
           ++ left. rewrite dom_insert_L. set_solver.
           ++ injection Heq as <- <-. left. rewrite dom_insert_L. set_solver.
           ++ right. by exists e.
      * destruct (IH errs0 st1)
          as (errs & st' & evs & HF & Hrd & Ht & Hall & Hatt & Hdom).
        exists errs, st', (DeleteSnapshotCall (snapshot_id x) None :: evs).
        rewrite HF, Hrd, Ht. simpl. rewrite <- app_assoc, Hatt.
        repeat split; try done; [by constructor|..].
        -- intros Hin. apply Hdom in Hin as [Hin|(e & Hin)]; [by left|].
           right. exists e. by right.
        -- intros [Hin|(e & [Heq|Hin])]; apply Hdom; [by left|done|].
           right. by exists e.
    + simpl. apply IH.
Qed.

(** What Delete does once the image is deregistered. *)
Lemma Delete_unfold (st : St World) w :
  ec2_DeregisterImage client (d_Id (rd st)) (remote st) = (None, w) ->
  Delete st =
  ((if d_manage_ebs_snapshots (rd st) then
      errs ← foldM (deleteSnapshotOf client) (d_ebs_block_device (rd st)) ∅;
      if bool_decide (0 < size errs)%nat then
        fail (ErrorString (Join (snapshotErrorParts rangeErrs errs) newline))
      else ret tt
    else ret tt);;
   d ← getData;
   WaitForDestroy TimeoutDelete (d_Id d))
    (Build_St (rd st) w (trace st ++ [DeregisterImageCall (d_Id (rd st)) None])).
Proof.
  intros Hd. unfold resourceAwsAmiDelete at 1. rewrite bind_unfold. simpl.
  rewrite bind_unfold. by rewrite (DeregisterImage_run _ _ _ _ Hd).
Qed.

Lemma size_pos_nonempty (errs : gmap string error) : (0 < size errs)%nat <-> errs ≠ ∅.
Proof.
  rewrite <- map_size_non_empty_iff. lia.
Qed.

(** Claim C2 (as amended).  After a successful deregistration Delete
    ends with the wait for "destroyed" when no snapshot deletion failed
    (or the snapshots are not managed): its result is the result of the
    wait, which returns nil only from a probe that reported "destroyed".
    When a snapshot deletion failed, Delete returns the aggregated error
    in the state the cascade left, without any probe. *)
Theorem Delete_waits_for_destroyed_unless_snapshot_deletion_failed (st : St World) w :
  ec2_DeregisterImage client (d_Id (rd st)) (remote st) = (None, w) ->
  let id := d_Id (rd st) in
  let deregistered := Build_St (rd st) w (trace st ++ [DeregisterImageCall id None]) in
  (d_manage_ebs_snapshots (rd st) = false ->
   Delete st = WaitForDestroy TimeoutDelete id deregistered) /\
  (d_manage_ebs_snapshots (rd st) = true ->
   exists errs st2,
     foldM (deleteSnapshotOf client) (d_ebs_block_device (rd st)) ∅ deregistered
       = (Done errs, st2) /\
     (errs = ∅ -> Delete st = WaitForDestroy TimeoutDelete id st2) /\
     (errs ≠ ∅ ->
      Delete st = (Failed (ErrorString (Join (snapshotErrorParts rangeErrs errs) newline)), st2) /\
      Forall isDeleteSnapshot (newEvents deregistered st2))) /\
  (forall s s',
     WaitForDestroy TimeoutDelete id s = (Done tt, s') ->
     exists s0 res, AMIStateRefreshFunc client id s0 = (Done (res, "destroyed"), s')).
Proof.
  intros Hd. simpl. rewrite (Delete_unfold st w Hd). split; [|split].
  - intros ->. rewrite bind_unfold. simpl. by rewrite bind_unfold.
  - intros ->.
    destruct (cascade_loop (d_ebs_block_device (rd st)) ∅
                (Build_St (rd st) w (trace st ++ [DeregisterImageCall (d_Id (rd st)) None])))
      as (errs & st2 & evs & HF & Hrd & Ht & Hall & _).
    exists errs, st2. split; [done|]. split.
    + intros ->. rewrite !bind_unfold, HF.
      rewrite bool_decide_false by (rewrite map_size_empty; lia).
      simpl. rewrite bind_unfold. simpl. by rewrite Hrd.
    + intros Hne. rewrite !bind_unfold, HF.
      rewrite bool_decide_true by by apply size_pos_nonempty.
      split; [done|]. by rewrite (newEvents_app _ _ evs).
  - intros s s'. apply WaitForDestroy_Done.
Qed.

(** Each collected error is the answer of a deletion of that snapshot. *)
Lemma cascade_loop_errors (l : list EbsBlockDev) (errs0 errs : gmap string error)
    (st st' : St World) s err :
  foldM (deleteSnapshotOf client) l errs0 st = (Done errs, st') ->
  errs !! s = Some err ->
  errs0 !! s = Some err \/ In (DeleteSnapshotCall s (Some err)) (newEvents st st').
Proof.
  revert errs0 st. induction l as [|x l IH]; intros errs0 st; simpl.
  - intros [= <- <-]. by left.
  - rewrite bind_unfold. unfold deleteSnapshotOf at 1.
    case_bool_decide as Hs; [|apply IH].
    rewrite bind_unfold. unfold DeleteSnapshot at 1.
    destruct (ec2_DeleteSnapshot client (snapshot_id x) (remote st)) as [e w] eqn:Hd.
    simpl.
    set (st1 := emit (DeleteSnapshotCall (snapshot_id x) e) w st).
    set (errs1 := match e with Some e' => <[snapshot_id x := e']> errs0 | None => errs0 end).
    assert (foldM (deleteSnapshotOf client) l errs1 st1 = (Done errs, st') ->
            errs !! s = Some err ->
            errs0 !! s = Some err \/ In (DeleteSnapshotCall s (Some err)) (newEvents st st'))
      as Hstep; [|by destruct e].
    intros HF Hl.
    destruct (cascade_loop l errs1 st1) as (errs' & st'' & evs & HF' & _ & Ht & _).
    rewrite HF in HF'. injection HF' as <- <-.
    rewrite (newEvents_app st st' (DeleteSnapshotCall (snapshot_id x) e :: evs));
      [|rewrite Ht; unfold st1, emit; simpl; by rewrite <- app_assoc].
    destruct (IH errs1 st1 HF Hl) as [H|H].
    + unfold errs1 in H. destruct e as [e|]; [|by left].
      destruct (decide (snapshot_id x = s)) as [<-|Hne].
      * rewrite lookup_insert_eq in H. injection H as <-. right. by left.
      * rewrite lookup_insert_ne in H by done. by left.
    + right. right. by rewrite (newEvents_app st1 st' evs Ht) in H.
Qed.

(** Claim C4.  With [manage_ebs_snapshots] set and the image
    deregistered, Delete attempts the deletion of the snapshot of every
    element of [ebs_block_device] with a non-empty snapshot id, in order
    and whatever the earlier deletions answered, and issues no other
    call meanwhile: the calls of Delete are the deregistration, these
    deletions, and then DescribeImages probes only.  When some deletion
    failed, Delete returns one error whose text is the heading, one line
    for each failed snapshot id and no other, each with the error its
    deletion answered, and the warning that these must be deleted
    manually; it issues no call after the deletions, so the image stays
    deregistered and no call restores it.  When none failed, Delete goes
    on with the wait for "destroyed".  The order of the lines is that of
    Go's map iteration, any arrangement of the collected entries. *)
Theorem Delete_cascade_attempts_all_and_aggregates (st : St World) w :
  (forall m, rangeErrs m ≡ₚ map_to_list m) ->
  ec2_DeregisterImage client (d_Id (rd st)) (remote st) = (None, w) ->
  d_manage_ebs_snapshots (rd st) = true ->
  let id := d_Id (rd st) in
  let deregistered := Build_St (rd st) w (trace st ++ [DeregisterImageCall id None]) in
  exists errs st2 evs rest,
    foldM (deleteSnapshotOf client) (d_ebs_block_device (rd st)) ∅ deregistered
      = (Done errs, st2) /\
    rd st2 = rd st /\
    trace st2 = (trace st ++ DeregisterImageCall id None :: evs)%list /\
    newEvents st (Delete st).2 = (DeregisterImageCall id None :: evs ++ rest)%list /\
    Forall isDeleteSnapshot evs /\
    Forall isDescribeImages rest /\
    attemptedSnapshots evs
      = filter (fun s => s ≠ "") (map snapshot_id (d_ebs_block_device (rd st))) /\
    ((exists s, failedSnapshot s evs) ->
     Delete st =
       (Failed (ErrorString
                  (Join (["Errors while deleting associated EBS snapshots:"]
                         ++ map (fun '(s, err) => s +:+ ": " +:+ Error err) (rangeErrs errs)
                         ++ ["These are no longer managed by Terraform and must be deleted manually."])%list
                        newline)),
        st2) /\
     rest = [] /\
     NoDup (map fst (rangeErrs errs)) /\
     (forall s, In s (map fst (rangeErrs errs)) <-> failedSnapshot s evs) /\
     (forall s err, In (s, err) (rangeErrs errs) -> In (DeleteSnapshotCall s (Some err)) evs)) /\
    (~ (exists s, failedSnapshot s evs) ->
     Delete st = WaitForDestroy TimeoutDelete id st2).
Proof.
  clear ebsSetList ephemeralSetList.
  intros Hrange Hd Hm. simpl.
  set (deregistered :=
         Build_St (rd st) w (trace st ++ [DeregisterImageCall (d_Id (rd st)) None])).
  destruct (cascade_loop (d_ebs_block_device (rd st)) ∅ deregistered)
    as (errs & st2 & evs & HF & Hrd & Ht & Hall & Hatt & Hdom).
  assert (forall s, s ∈ dom errs <-> failedSnapshot s evs) as Hdom_empty.
  { intros s. rewrite Hdom. set_solver. }
  assert (trace st2 = (trace st ++ DeregisterImageCall (d_Id (rd st)) None :: evs)%list) as Ht2.
  { rewrite Ht. simpl. by rewrite <- app_assoc. }
  assert (forall s, In s (map fst (rangeErrs errs)) <-> failedSnapshot s evs) as Hnames.
  { intros s. rewrite in_map_iff, <- Hdom_empty, elem_of_dom. split.
    - intros ([s' err] & <- & Hin). exists err.
      apply elem_of_map_to_list. by rewrite <- (Hrange errs), list_elem_of_In.
    - intros [err Hl]. exists (s, err). split; [done|].
      apply list_elem_of_In. rewrite (Hrange errs). by apply elem_of_map_to_list. }
  assert (Delete st =
          (if bool_decide (0 < size errs)%nat then
             fail (ErrorString (Join (snapshotErrorParts rangeErrs errs) newline))
           else WaitForDestroy TimeoutDelete (d_Id (rd st))) st2) as Hrun.
  { rewrite (Delete_unfold st w Hd), Hm. rewrite !bind_unfold. fold deregistered.
    rewrite HF. case_bool_decide; [done|].
    simpl. rewrite bind_unfold. simpl. by rewrite Hrd. }
  destruct (decide (errs = ∅)) as [He|He].
  - assert (~ (exists s, failedSnapshot s evs)) as Hnone.
    { intros (s & Hs). apply Hdom_empty in Hs. rewrite He, dom_empty_L in Hs.
      by apply not_elem_of_empty in Hs. }
    assert (Delete st = WaitForDestroy TimeoutDelete (d_Id (rd st)) st2) as Hwait.
    { rewrite Hrun, bool_decide_false; [done|]. rewrite He, map_size_empty. lia. }
    destruct (emits_WaitForDestroy TimeoutDelete (d_Id (rd st)) st2) as (rest & Hrest & Hprobes).
    exists errs, st2, evs, rest.
    split; [done|]. split; [done|]. split; [done|]. split.
    { rewrite Hwait. apply newEvents_app. rewrite Hrest, Ht2. by rewrite <- app_assoc. }
    split; [done|]. split; [done|]. split; [done|]. split; [|done].
    intros Hsome. by destruct Hnone.
  - assert (exists s, failedSnapshot s evs) as Hsome.
    { apply map_choose in He as (s & err & Hs). exists s. apply Hdom_empty, elem_of_dom. by exists err. }
    assert (Delete st =
            (Failed (ErrorString (Join (snapshotErrorParts rangeErrs errs) newline)), st2))
      as Hfail.
    { rewrite Hrun, bool_decide_true; [done|]. by apply size_pos_nonempty. }
    exists errs, st2, evs, [].
    split; [done|]. split; [done|]. split; [done|]. split.
    { rewrite Hfail. apply newEvents_app. simpl. by rewrite app_nil_r. }
    split; [done|]. split; [done|]. split; [done|]. split; [|by intros Hnone].
    intros _. split; [exact Hfail|]. split; [done|]. split; [|split].
    + rewrite (Hrange errs). apply NoDup_fst_map_to_list.
    + done.
    + intros s' err Hin.
      apply list_elem_of_In in Hin. rewrite (Hrange errs) in Hin.
      apply elem_of_map_to_list in Hin.
      destruct (cascade_loop_errors _ _ _ _ _ s' err HF Hin) as [Hbad|Hev].
      * by rewrite lookup_empty in Hbad.
      * by rewrite (newEvents_app deregistered st2 evs Ht) in Hev.
Qed.

(** ** Update *)

Lemma Ec2UpdateTags_events id (o n : gmap string string) (st : St World) :
  exists evs,
    trace (Ec2UpdateTags client id o n st).2 = (trace st ++ evs)%list /\
    rd (Ec2UpdateTags client id o n st).2 = rd st /\
    Forall isTagCall evs /\
    ((Ec2UpdateTags client id o n st).1 = Done tt -> evs = tagDiffCalls id o n).
Proof.
  unfold Ec2UpdateTags, tagDiffCalls. rewrite bind_unfold.
  assert (forall (b : bool) (keys : gset string) (s : St World),
            exists evs,
              let r := (if b then
                          err ← DeleteTags client id keys;
                          match err with Some err => fail err | None => ret tt end
                        else ret tt) s in
              trace r.2 = (trace s ++ evs)%list /\ rd r.2 = rd s /\ Forall isTagCall evs /\
              (r.1 = Done tt -> evs = if b then [DeleteTagsCall id keys None] else [])) as HD.
  { intros [] keys s; simpl; [|exists []; by rewrite app_nil_r].
    rewrite bind_unfold. unfold DeleteTags.
    destruct (ec2_DeleteTags client id keys (remote s)) as [[err|] w'];
      eexists; simpl; (split; [done|]); (split; [done|]);
        (split; [by repeat constructor|done]). }
  assert (forall (b : bool) (tags : gmap string string) (s : St World),
            exists evs,
              let r := (if b then
                          err ← CreateTags client id tags;
                          match err with Some err => fail err | None => ret tt end
                        else ret tt) s in
              trace r.2 = (trace s ++ evs)%list /\ rd r.2 = rd s /\ Forall isTagCall evs /\
              (r.1 = Done tt -> evs = if b then [CreateTagsCall id tags None] else [])) as HC.
  { intros [] tags s; simpl; [|exists []; by rewrite app_nil_r].
    rewrite bind_unfold. unfold CreateTags.
    destruct (ec2_CreateTags client id tags (remote s)) as [[err|] w'];
      eexists; simpl; (split; [done|]); (split; [done|]);
        (split; [by repeat constructor|done]). }
  destruct (HD (bool_decide (removedTags o n ≠ ∅)) (removedTags o n) st)
    as (evs1 & Ht1 & Hrd1 & Hall1 & Hdone1). simpl in *.
  match type of Ht1 with
  | trace (?c st).2 = _ => destruct (c st) as [[[]|e|] st1]
  end; simpl in *.
  - destruct (HC (bool_decide (updatedTags o n ≠ ∅)) (updatedTags o n) st1)
      as (evs2 & Ht2 & Hrd2 & Hall2 & Hdone2). simpl in *.
    exists (evs1 ++ evs2)%list. rewrite Ht2, Ht1, Hrd2, Hrd1, app_assoc.
    split; [done|]. split; [done|]. split; [by apply Forall_app|].
    intros Hdone. by rewrite Hdone1, Hdone2.
  - exists evs1. by repeat split.
  - exists evs1. by repeat split.
Qed.

(** Claim C5 (as amended).  When the tags changed and the description
    did not, Update first issues the calls of the tag diff (a remove
    call when a key was dropped, an apply call when a tag was added or
    changed).  When they succeeded it then issues a ModifyImageAttribute
    call for the description exactly when the description is not empty,
    also when it is unchanged; what follows are the DescribeImages calls
    of Read. *)
Theorem Update_tags_then_description_when_not_empty (st : St World) :
  HasChange_tags (rd st) = true ->
  d_description_old (rd st) = d_description (rd st) ->
  let id := d_Id (rd st) in
  let description := d_description (rd st) in
  let tagged := Ec2UpdateTags client id (d_tags_old (rd st)) (d_tags (rd st)) st in
  exists tagEvs rest,
    newEvents st (Update st).2 = (tagEvs ++ rest)%list /\
    newEvents st tagged.2 = tagEvs /\
    Forall isTagCall tagEvs /\
    match tagged.1 with
    | Done _ =>
        tagEvs = tagDiffCalls id (d_tags_old (rd st)) (d_tags (rd st)) /\
        (description = "" -> Forall isDescribeImages rest) /\
        (description ≠ "" ->
         exists err rest',
           rest = ModifyImageAttributeCall id description err :: rest' /\
           Forall isDescribeImages rest')
    | _ => rest = []
    end.
Proof.
  intros Hchange _. simpl.
  destruct (Ec2UpdateTags_events (d_Id (rd st)) (d_tags_old (rd st)) (d_tags (rd st)) st)
    as (tagEvs & Ht & Hrd & Hall & Hdone).
  unfold resourceAwsAmiUpdate. rewrite bind_unfold. simpl. rewrite Hchange.
  rewrite !bind_unfold. unfold catch.
  destruct (Ec2UpdateTags client _ _ _ st) as [[[]|e|] st1]; simpl in *.
  - case_bool_decide as Hdesc.
    + rewrite !bind_unfold. unfold ModifyImageAttribute at 1.
      destruct (ec2_ModifyImageAttribute client _ _ (remote st1)) as [err w']. simpl.
      destruct err as [err|]; simpl.
      * exists tagEvs, [ModifyImageAttributeCall (d_Id (rd st)) (d_description (rd st)) (Some err)].
        split; [apply newEvents_app; simpl; by rewrite Ht, <- app_assoc|].
        split; [by apply newEvents_app|]. split; [done|]. split; [by apply Hdone|].
        split; [done|]. intros _. by exists (Some err), [].
      * destruct (emits_Read
                    (emit (ModifyImageAttributeCall (d_Id (rd st)) (d_description (rd st)) None)
                       w' st1)) as (evs & Ht' & Hevs).
        exists tagEvs, (ModifyImageAttributeCall (d_Id (rd st)) (d_description (rd st)) None :: evs).
        split; [apply newEvents_app; rewrite Ht'; simpl; by rewrite Ht, <- !app_assoc|].
        split; [by apply newEvents_app|]. split; [done|]. split; [by apply Hdone|].
        split; [done|]. intros _. by exists None, evs.
    + simpl. rewrite bind_unfold. simpl.
      destruct (emits_Read st1) as (evs & Ht' & Hevs).
      exists tagEvs, evs.
      split; [apply newEvents_app; by rewrite Ht', Ht, <- app_assoc|].
      split; [by apply newEvents_app|]. split; [done|]. split; [by apply Hdone|].
      split; [done|]. intros Hne. by destruct Hne.
  - exists tagEvs, []. rewrite app_nil_r.
    split; [by apply newEvents_app|]. split; [by apply newEvents_app|]. done.
  - exists tagEvs, []. rewrite app_nil_r.
    split; [by apply newEvents_app|]. split; [by apply newEvents_app|]. done.
Qed.

End ResourceFacts.

(** ** The set functions *)

(** Claim C9 (as amended).  An element of [ebs_block_device] is
    identified by the hash code of its device name and its snapshot id,
    written one after the other, each followed by a dash; an element of
    [ephemeral_block_device] by that of its device name and its virtual
    name.  Two elements that agree on the two fields are the same
    element of the set, whatever their other fields and wherever they
    are declared. *)
Theorem Set_keyed_by_device_name_and_second_field (hashcode_String : string -> Z)
    (e1 e2 : EbsBlockDev) (m1 m2 : EphemeralBlockDev) :
  ebs_block_device_Set hashcode_String e1
    = hashcode_String (device_name e1 +:+ "-" +:+ snapshot_id e1 +:+ "-") /\
  ephemeral_block_device_Set hashcode_String m1
    = hashcode_String (eph_device_name m1 +:+ "-" +:+ eph_virtual_name m1 +:+ "-") /\
  (device_name e1 = device_name e2 -> snapshot_id e1 = snapshot_id e2 ->
   ebs_block_device_Set hashcode_String e1 = ebs_block_device_Set hashcode_String e2) /\
  (eph_device_name m1 = eph_device_name m2 -> eph_virtual_name m1 = eph_virtual_name m2 ->
   ephemeral_block_device_Set hashcode_String m1
     = ephemeral_block_device_Set hashcode_String m2).
Proof.
  assert (forall a b, ("" +:+ (a +:+ "-")) +:+ (b +:+ "-") = a +:+ "-" +:+ b +:+ "-") as Hbuf.
  { intros a b. change ("" +:+ (a +:+ "-")) with (a +:+ "-").
    induction a as [|c a IH]; [reflexivity|].
    change (String c ((a +:+ "-") +:+ (b +:+ "-")) = String c (a +:+ "-" +:+ b +:+ "-")).
    by rewrite IH. }
  unfold ebs_block_device_Set, ephemeral_block_device_Set. cbv zeta. rewrite !Hbuf.
  repeat split; try done.
  - by intros -> ->.
  - by intros -> ->.
Qed.

(** ** The claims on example runs *)

Module Examples.

Import Scripted.

Lemma Create_conflict_example :
  Create conflictStart = (Failed conflictError, conflictStart).
Proof.
  apply (Create_snapshot_and_encrypted_fails_before_any_call
           client "aws" "us-east-1" id (fun _ => "") attempts ebsSetList ephemeralSetList conflictStart).
  apply Exists_cons_hd. split; [discriminate|reflexivity].
Defined.

Lemma Create_numerics_example :
  exists ebsMappings,
    omap Ebs ebsMappings ≫= (fun ebs => [(Iops ebs, VolumeSize ebs)])
      = [(None, Some 8); (None, None); (Some 100, Some 20)] /\
    Forall2 sendsNumerics (d_ebs_block_device numericsData) ebsMappings.
Proof.
  destruct (Create_request_omits_zero_iops_and_volume_size
              client "aws" "us-east-1" id (fun _ => "") attempts ebsSetList ephemeralSetList numericsStart
              (registerImageInput numericsData
                 [{| DeviceName := Some "/dev/sda1"; VirtualName := None;
                     Ebs := Some {| DeleteOnTermination := Some true; Encrypted := None;
                                    Iops := None; SnapshotId := None;
                                    VolumeSize := Some 8; VolumeType := Some "gp2" |} |};
                  {| DeviceName := Some "/dev/sdb"; VirtualName := None;
                     Ebs := Some {| DeleteOnTermination := Some true; Encrypted := None;
                                    Iops := None; SnapshotId := None;
                                    VolumeSize := None; VolumeType := Some "gp2" |} |};
                  {| DeviceName := Some "/dev/sdc"; VirtualName := None;
                     Ebs := Some {| DeleteOnTermination := Some true; Encrypted := None;
                                    Iops := Some 100; SnapshotId := None;
                                    VolumeSize := Some 20; VolumeType := Some "gp2" |} |}])
              (inr "ami-1")) as (ebsMappings & Hreq & HF).
  { vm_compute. left. reflexivity. }
  exists ebsMappings. split; [|exact HF].
  simpl in Hreq. rewrite app_nil_r in Hreq. by rewrite <- Hreq.
Defined.

Lemma Create_tagged_example :
  Create taggedStart
    = match resourceAwsAmiWaitForAvailable client attempts TimeoutCreate "ami-1"
              (Build_St (SetId "ami-1" taggedData) (remote taggedStart)
                 [RegisterImageCall (registerImageInput taggedData []) (inr "ami-1");
                  CreateTagsCall "ami-1" {["env" := "prod"]} None]) with
      | (Done _, s') => Read s'
      | (Failed err, s') => (Failed err, s')
      | (Panicked, s') => (Panicked, s')
      end /\
  (forall err st', Create taggedStart = (Failed err, st') -> d_Id (rd st') = "ami-1").
Proof.
  destruct (Create_records_id_then_tags_wait_read
              client "aws" "us-east-1" id (fun _ => "") attempts ebsSetList ephemeralSetList taggedStart [] "ami-1"
              (remote taggedStart)) as (_ & Htags & Hid); [reflexivity..|].
  split; [|exact Hid].
  apply (Htags ltac:(by vm_compute) None (remote taggedStart)). reflexivity.
Defined.

Lemma Delete_refused_example :
  Delete refusedStart
    = (Failed accessDenied,
       Build_St cascadeData (remote refusedStart)
         [DeregisterImageCall "ami-1" (Some accessDenied)]).
Proof.
  apply (Delete_deregister_error_returns_at_once client attempts map_to_list refusedStart).
  reflexivity.
Defined.

Lemma WaitForAvailable_not_found_example :
  resourceAwsAmiWaitForAvailable client attempts TimeoutCreate "ami-1" notFoundYetRegistered
    = (Failed (ErrorString
                 "Error waiting for AMI (ami-1) to be ready: unexpected state 'destroyed'"),
       Build_St (rd notFoundYetRegistered)
         (world [({| Images := [image "available"] |}, None);
                 ({| Images := [image "available"] |}, None)] [])
         [DescribeImagesCall "ami-1" {| Images := [] |} (Some notFound)]).
Proof.
  apply (WaitForAvailable_not_found_is_destroyed_and_fails
           client attempts notFoundYetRegistered TimeoutCreate "ami-1"
           {| Images := [] |} notFound); reflexivity.
Defined.

Lemma Read_gone_example :
  Read goneStart
    = (Done tt,
       Build_St (SetId "" (rd goneStart)) (world [] [])
         [DescribeImagesCall "ami-1" {| Images := [] |} (Some notFound)]).
Proof.
  destruct (Read_absent_clears_id_and_succeeds
              client "aws" "us-east-1" id (fun _ => "") attempts ebsSetList ephemeralSetList goneStart
              {| Images := [] |} (Some notFound) (world [] [])) as (Hgone & _);
    [reflexivity|].
  apply Hgone; [reflexivity|by exists notFound|discriminate].
Defined.

Lemma Delete_clean_cascade_example :
  exists errs st2,
    foldM (deleteSnapshotOf client) (d_ebs_block_device cascadeData) ∅
      (Build_St cascadeData (remote cleanCascadeStart) [DeregisterImageCall "ami-1" None])
      = (Done errs, st2) /\
    (errs = ∅ ->
     Delete cleanCascadeStart
       = resourceAwsAmiWaitForDestroy client attempts TimeoutDelete "ami-1" st2).
Proof.
  destruct (Delete_waits_for_destroyed_unless_snapshot_deletion_failed
              client attempts map_to_list cleanCascadeStart (remote cleanCascadeStart))
    as (_ & Hmanaged & _); [reflexivity|].
  destruct (Hmanaged eq_refl) as (errs & st2 & HF & Hwait & _).
  exists errs, st2. split; [exact HF|exact Hwait].
Defined.

Lemma Delete_cascade_example :
  exists evs rest,
    newEvents cascadeStart (Delete cascadeStart).2
      = (DeregisterImageCall "ami-1" None :: evs ++ rest)%list /\
    Forall isDeleteSnapshot evs /\
    Forall isDescribeImages rest /\
    attemptedSnapshots evs = ["s1"; "s2"; "s3"].
Proof.
  destruct (Delete_cascade_attempts_all_and_aggregates
              client attempts map_to_list cascadeStart (remote cascadeStart))
    as (errs & st2 & evs & rest & _ & _ & _ & Hnew & Hall & Hprobes & Hatt & _);
    [done|reflexivity..|].
  exists evs, rest.
  split; [exact Hnew|]. split; [exact Hall|]. split; [exact Hprobes|exact Hatt].
Defined.

Lemma Update_retag_example :
  exists tagEvs rest,
    newEvents retagStart (Update retagStart).2 = (tagEvs ++ rest)%list /\
    Forall isTagCall tagEvs.
Proof.
  destruct (Update_tags_then_description_when_not_empty
              client "aws" "us-east-1" id (fun _ => "") attempts ebsSetList ephemeralSetList retagStart)
    as (tagEvs & rest & Hnew & _ & Hall & _); [by vm_compute|reflexivity|].
  exists tagEvs, rest. split; [exact Hnew|exact Hall].
Defined.

Lemma Set_same_device_and_snapshot_example :
  ebs_block_device_Set lengthCode (ebs "/dev/sda1" "snap-1" false None (Some 8))
    = ebs_block_device_Set lengthCode (ebs "/dev/sda1" "snap-1" false (Some 100) None).
Proof.
  destruct (Set_keyed_by_device_name_and_second_field lengthCode
              (ebs "/dev/sda1" "snap-1" false None (Some 8))
              (ebs "/dev/sda1" "snap-1" false (Some 100) None)
              {| eph_device_name := "/dev/sdd"; eph_virtual_name := "ephemeral0" |}
              {| eph_device_name := "/dev/sdd"; eph_virtual_name := "ephemeral0" |})
    as (_ & _ & Hebs & _).
  apply Hebs; reflexivity.
Defined.

(** The tag diff of the update from [env = dev] to [env = prod] and
    [team = x]: one apply call with both tags, no remove call. *)
Example tagDiffCalls_overwrite_and_add :
  tagDiffCalls "ami-1" {["env" := "dev"]} (<["team" := "x"]> {["env" := "prod"]})
    = [CreateTagsCall "ami-1" (<["team" := "x"]> {["env" := "prod"]}) None].
Proof. by vm_compute. Qed.

(** A pending image is polled again: the wait of the tagged example
    returns at the second probe. *)
Example Create_tagged_trace :
  (Create taggedStart).1 = Done tt /\
  omap (fun e => match e with
                 | DescribeImagesCall _ out _ => Some (omap State (Images out))
                 | _ => None
                 end) (trace (Create taggedStart).2)
    = [["pending"]; ["available"]; ["available"]].
Proof. split; by vm_compute. Qed.

(** ** Where the code departs from the claims as they were stated *)

(** Claim C2 as stated fails.  The image is deregistered, the deletion
    of the second of three managed snapshots fails: Delete returns the
    aggregated error after the three deletions and issues no
    DescribeImages call, so it does not wait for "destroyed". *)
Lemma Delete_returns_snapshot_error_without_waiting :
  ec2_DeregisterImage client "ami-1" (remote cascadeStart) = (None, remote cascadeStart) /\
  (Delete cascadeStart).1
    = Failed (ErrorString
                ("Errors while deleting associated EBS snapshots:" +:+ newline +:+
                 "s2: UnauthorizedOperation: not authorized" +:+ newline +:+
                 "These are no longer managed by Terraform and must be deleted manually.")) /\
  trace (Delete cascadeStart).2
    = [DeregisterImageCall "ami-1" None;
       DeleteSnapshotCall "s1" None;
       DeleteSnapshotCall "s2" (Some accessDenied);
       DeleteSnapshotCall "s3" None] /\
  ~ Exists isDescribeImages (trace (Delete cascadeStart).2).
Proof.
  split; [reflexivity|]. split; [by vm_compute|]. split; [by vm_compute|].
  assert (trace (Delete cascadeStart).2
          = [DeregisterImageCall "ami-1" None;
             DeleteSnapshotCall "s1" None;
             DeleteSnapshotCall "s2" (Some accessDenied);
             DeleteSnapshotCall "s3" None]) as -> by by vm_compute.
  rewrite !Exists_cons, Exists_nil. simpl. tauto.
Qed.

(** Claim C3 as stated fails.  The resource is marked new and the first
    probe of the wait in Create does not find the image: the status is
    "destroyed", not pending, and Create fails after this one probe
    although the timeout leaves room for five more. *)
Lemma Create_fails_on_not_found_while_waiting :
  d_IsNewResource (rd notFoundYetStart) = true /\
  attempts TimeoutCreate = 5%nat /\
  (Create notFoundYetStart).1
    = Failed (ErrorString
                "Error waiting for AMI (ami-1) to be ready: unexpected state 'destroyed'") /\
  trace (Create notFoundYetStart).2
    = [RegisterImageCall (registerImageInput (rd notFoundYetStart) []) (inr "ami-1");
       DescribeImagesCall "ami-1" {| Images := [] |} (Some notFound)].
Proof. repeat split; by vm_compute. Qed.

(** Claim C5 as stated fails.  Only the tags change, the description
    "my image" is the one of the prior state: Update applies the tags
    and then issues a ModifyImageAttribute call for the description. *)
Lemma Update_modifies_unchanged_description :
  d_description_old retagData = d_description retagData /\
  HasChange_tags retagData = true /\
  trace (Update retagStart).2
    = [CreateTagsCall "ami-1" (<["team" := "x"]> {["env" := "prod"]}) None;
       ModifyImageAttributeCall "ami-1" "my image" None;
       DescribeImagesCall "ami-1" {| Images := [image "available"] |} None].
Proof. repeat split; by vm_compute. Qed.

(** Claim C9 as stated fails.  Two EBS elements with different device
    names get the same code from the set function, whatever the hash
    function is, because both write "/dev/sda-snap-1-" into the buffer:
    they are one element of the set.  And two elements with the same
    device name and different snapshot ids write different strings, so
    they are two elements whenever the hash function tells the strings
    apart. *)
Lemma Set_is_not_keyed_by_device_name_alone :
  let e1 := ebs "/dev/sda" "snap-1" false None None in
  let e2 := ebs "/dev/sda-snap" "1" false None None in
  let e3 := ebs "/dev/sda" "snap-2" false None None in
  (forall hashcode_String,
     ebs_block_device_Set hashcode_String e1 = ebs_block_device_Set hashcode_String e2) /\
  device_name e1 <> device_name e2 /\
  device_name e1 = device_name e3 /\
  (forall hashcode_String,
     hashcode_String "/dev/sda-snap-1-" <> hashcode_String "/dev/sda-snap-2-" ->
     ebs_block_device_Set hashcode_String e1 <> ebs_block_device_Set hashcode_String e3) /\
  ~ (forall hashcode_String a b,
       ebs_block_device_Set hashcode_String a = ebs_block_device_Set hashcode_String b
       <-> device_name a = device_name b).
Proof.
  simpl. split; [done|]. split; [done|]. split; [done|]. split; [done|].
  intros H.
  discriminate (proj1 (H lengthCode (ebs "/dev/sda" "snap-1" false None None)
                         (ebs "/dev/sda-snap" "1" false None None)) eq_refl).
Qed.

End Examples.

(** * Further properties of the resource *)

(** ** The monad, continued *)

Section MoreMonadFacts.

Context {W : Type}.

Lemma moves_keeps {A} R `{!Reflexive R} (c : M W A) : keeps c -> moves R c.
Proof. intros H st. by rewrite H. Qed.

Lemma moves_modifyData R f : (forall d, R d (f d)) -> moves (W:=W) R (modifyData f).
Proof. intros H st. apply H. Qed.

Lemma moves_bind {A B} R `{!Transitive R} (c : M W A) (k : A -> M W B) :
  moves R c -> (forall a, moves R (k a)) -> moves R (c ≫= k).
Proof.
  intros Hc Hk st. rewrite bind_unfold. specialize (Hc st).
  destruct (c st) as [[a|e|] st1]; simpl in *; [|done..].
  etrans; [exact Hc|apply Hk].
Qed.

Lemma moves_foldM {A B} R `{!PreOrder R} (body : B -> A -> M W B) l :
  (forall acc x, moves R (body acc x)) -> forall acc, moves R (foldM body l acc).
Proof.
  intros Hbody. induction l as [|x l IH]; intros acc; simpl.
  - by intros st.
  - apply moves_bind; [apply _|auto..].
Qed.

Lemma emitsAtMost_emits {A} P n (c : M W A) : emitsAtMost P n c -> emits P c.
Proof. intros H st. destruct (H st) as (evs & ? & ? & _). eauto. Qed.

Lemma emitsAtMost_silent {A} P (c : M W A) :
  (forall st, trace (c st).2 = trace st) -> emitsAtMost P 0 c.
Proof. intros H st. exists []. rewrite H, app_nil_r. by repeat split. Qed.

Lemma emitsAtMost_ret {A} P n (a : A) : emitsAtMost (W:=W) P n (ret a).
Proof. intros st. exists []. simpl. rewrite app_nil_r. repeat split; [done|lia]. Qed.

Lemma emitsAtMost_fail {A} P n e : emitsAtMost (W:=W) (A:=A) P n (fail e).
Proof. intros st. exists []. simpl. rewrite app_nil_r. repeat split; [done|lia]. Qed.

Lemma emitsAtMost_deref {A} P n (p : option A) : emitsAtMost (W:=W) P n (deref p).
Proof.
  intros st. exists []. destruct p; simpl; rewrite app_nil_r; repeat split; try done; lia.
Qed.

Lemma emitsAtMost_getData P n : emitsAtMost (W:=W) P n getData.
Proof. intros st. exists []. simpl. rewrite app_nil_r. repeat split; [done|lia]. Qed.

Lemma emitsAtMost_modifyData P n f : emitsAtMost (W:=W) P n (modifyData f).
Proof. intros st. exists []. simpl. rewrite app_nil_r. repeat split; [done|lia]. Qed.

Lemma emitsAtMost_le {A} P n m (c : M W A) :
  (n <= m)%nat -> emitsAtMost P n c -> emitsAtMost P m c.
Proof.
  intros Hle H st. destruct (H st) as (evs & ? & ? & ?).
  exists evs. repeat split; [done..|lia].
Qed.

Lemma emitsAtMost_bind {A B} P n m (c : M W A) (k : A -> M W B) :
  emitsAtMost P n c -> (forall a, emitsAtMost P m (k a)) -> emitsAtMost P (n + m) (c ≫= k).
Proof.
  intros Hc Hk st. rewrite bind_unfold.
  destruct (Hc st) as (evs & Ht & Hevs & Hn).
  destruct (c st) as [[a|e|] st1]; simpl in *;
    [|exists evs; repeat split; [done..|lia]..].
  destruct (Hk a st1) as (evs' & Ht' & Hevs' & Hm).
  exists (evs ++ evs')%list. split; [by rewrite Ht', Ht, app_assoc|].
  split; [by apply Forall_app|]. rewrite length_app. lia.
Qed.

Lemma emitsAtMost_catch {A} P n (c : M W A) : emitsAtMost P n c -> emitsAtMost P n (catch c).
Proof.
  intros Hc st. destruct (Hc st) as (evs & Ht & Hevs & Hn).
  unfold catch. destruct (c st) as [[a|e|] st1]; simpl in *; eauto.
Qed.

End MoreMonadFacts.

(** ** The resource data along the four operations *)

Section MoreFacts.

Context {World : Type}.
Variable client : EC2 World.
Variable partition region : string.
Variable ignoreTags : gmap string string -> gmap string string.
Variable amiRootSnapshotId : Image -> string.
Variable attempts : Duration -> nat.
Variable rangeErrs : gmap string error -> list (string * error).
Variable ebsSetList : list EbsBlockDev -> list EbsBlockDev.
Variable ephemeralSetList : list EphemeralBlockDev -> list EphemeralBlockDev.

Local Abbreviation Read :=
  (resourceAwsAmiRead client partition region ignoreTags amiRootSnapshotId attempts
     ebsSetList ephemeralSetList).
Local Abbreviation Create :=
  (resourceAwsAmiCreate client partition region ignoreTags amiRootSnapshotId attempts
     ebsSetList ephemeralSetList).
Local Abbreviation Update :=
  (resourceAwsAmiUpdate client partition region ignoreTags amiRootSnapshotId attempts
     ebsSetList ephemeralSetList).
Local Abbreviation Delete := (resourceAwsAmiDelete client attempts rangeErrs).
Local Abbreviation WaitForAvailable := (resourceAwsAmiWaitForAvailable client attempts).
Local Abbreviation WaitForDestroy := (resourceAwsAmiWaitForDestroy client attempts).

Hint Resolve emits_DescribeImages emits_DeleteSnapshot emits_CreateTags emits_DeleteTags
  emits_ModifyImageAttribute keeps_DescribeImages keeps_DeleteSnapshot keeps_CreateTags
  keeps_DeleteTags : run.

#[local] Instance sameProvenance_preorder : PreOrder sameProvenance.
Proof.
  split.
  - by intros d.
  - intros d1 d2 d3 [H1 H2] [H3 H4]. split; congruence.
Qed.

#[local] Instance idKeptOrCleared_preorder : PreOrder idKeptOrCleared.
Proof.
  split.
  - intros d. by left.
  - intros d1 d2 d3 [H1|H1] [H2|H2]; unfold idKeptOrCleared; rewrite H2; auto.
Qed.

Lemma keeps_ModifyImageAttribute id description :
  keeps (ModifyImageAttribute client id description).
Proof.
  intros st. unfold ModifyImageAttribute.
  by destruct (ec2_ModifyImageAttribute client id description (remote st)) as [err w].
Qed.

Lemma keeps_DeregisterImage id : keeps (DeregisterImage client id).
Proof.
  intros st. unfold DeregisterImage.
  by destruct (ec2_DeregisterImage client id (remote st)) as [err w].
Qed.

Lemma keeps_RegisterImage req : keeps (RegisterImage client req).
Proof.
  intros st. unfold RegisterImage.
  by destruct (ec2_RegisterImage client req (remote st)) as [res w].
Qed.

Lemma keeps_flattenBlockDev acc blockDev : keeps (W:=World) (flattenBlockDev acc blockDev).
Proof. unfold flattenBlockDev. walk. Qed.

Lemma keeps_Ec2UpdateTags id o n : keeps (Ec2UpdateTags client id o n).
Proof.
  intros st. by destruct (Ec2UpdateTags_events client id o n st) as (? & _ & ? & _).
Qed.

Lemma keeps_deleteSnapshotOf errs ebsBlockDev :
  keeps (deleteSnapshotOf client errs ebsBlockDev).
Proof. unfold deleteSnapshotOf. walk. Qed.

Section Moves.

Variable R : ResourceData -> ResourceData -> Prop.
Context `{!PreOrder R}.
Hypothesis R_clear : forall d, R d (SetId "" d).
Hypothesis R_attributes :
  forall image arn d, R d (setImageAttributes amiRootSnapshotId image arn d).
Hypothesis R_collections :
  forall ebsBlockDevs ephemeralBlockDevs tags d,
    R d (setBlockDevicesAndTags ebsBlockDevs ephemeralBlockDevs tags d).

Lemma moves_readAttempt id : moves R (readAttempt client id).
Proof.
  unfold readAttempt.
  apply moves_bind; [apply _|apply moves_keeps; [apply _|apply keeps_DescribeImages]|].
  intros [res [err|]]; [|by apply moves_keeps; [apply _|apply keeps_ret]].
  destruct (isAWSErr err _); [|by apply moves_keeps; [apply _|apply keeps_ret]].
  apply moves_bind; [apply _|apply moves_keeps; [apply _|apply keeps_getData]|].
  intros d. destruct (d_IsNewResource d); [by apply moves_keeps; [apply _|apply keeps_ret]|].
  apply moves_bind; [apply _|by apply moves_modifyData|].
  intros _. apply moves_keeps; [apply _|apply keeps_ret].
Qed.

Lemma moves_Retry_loop {T} (f : M World (T * option RetryError)) n :
  moves R f -> moves R (Retry_loop f n).
Proof.
  intros H. induction n; simpl.
  - apply moves_bind; [apply _|done|].
    intros [res [[err|err]|]]; apply moves_keeps; try apply _; apply keeps_ret.
  - apply moves_bind; [apply _|done|].
    intros [res [[err|err]|]];
      [apply IHn|apply moves_keeps; try apply _; apply keeps_ret..].
Qed.

Lemma moves_Read : moves R Read.
Proof.
  assert (forall A (c : M World A), keeps c -> moves R c) as Hk.
  { intros A c. apply moves_keeps, _. }
  unfold resourceAwsAmiRead, Retry.
  apply moves_bind; [apply _|apply Hk, keeps_getData|intros d].
  apply moves_bind; [apply _|apply moves_Retry_loop, moves_readAttempt|intros [res err]].
  apply moves_bind; [apply _| |].
  { apply Hk. destruct (isResourceTimeoutError err); walk. }
  intros [res' err'].
  destruct err'; [apply Hk, keeps_fail|].
  destruct (bool_decide _); [by apply moves_modifyData|].
  apply moves_bind; [apply _|apply Hk, keeps_deref|intros image].
  apply moves_bind; [apply _|apply Hk, keeps_deref|intros state].
  apply moves_bind; [apply _| |].
  { apply Hk. destruct (bool_decide _); [|walk].
    apply keeps_bind; [apply keeps_WaitForAvailable|intros]. walk. }
  intros [image' state'].
  destruct (bool_decide _); [by apply moves_modifyData|].
  destruct (bool_decide _); [apply Hk, keeps_fail|].
  apply moves_bind; [apply _|apply Hk, keeps_getData|intros d'].
  apply moves_bind; [apply _|by apply moves_modifyData|intros _].
  apply moves_bind; [apply _| |intros [? ?]; by apply moves_modifyData].
  apply Hk, keeps_foldM. intros. apply keeps_flattenBlockDev.
Qed.

Lemma moves_Update : moves R Update.
Proof.
  assert (forall A (c : M World A), keeps c -> moves R c) as Hk.
  { intros A c. apply moves_keeps, _. }
  unfold resourceAwsAmiUpdate.
  apply moves_bind; [apply _|apply Hk, keeps_getData|intros d].
  apply moves_bind; [apply _| |intros _].
  { apply Hk. destruct (HasChange_tags d); [|walk].
    apply keeps_bind; [apply keeps_catch, keeps_Ec2UpdateTags|intros; walk]. }
  apply moves_bind; [apply _| |intros _; apply moves_Read].
  apply Hk. destruct (bool_decide _); [|walk].
  apply keeps_bind; [apply keeps_ModifyImageAttribute|intros; walk].
Qed.

End Moves.

Lemma keeps_Delete : keeps Delete.
Proof.
  unfold resourceAwsAmiDelete.
  apply keeps_bind; [apply keeps_getData|intros d].
  apply keeps_bind; [apply keeps_DeregisterImage|intros [err|]]; [apply keeps_fail|].
  apply keeps_bind.
  - destruct (d_manage_ebs_snapshots d); [|apply keeps_ret].
    apply keeps_bind; [|intros; walk].
    apply keeps_foldM. intros. apply keeps_deleteSnapshotOf.
  - intros _. apply keeps_bind; [apply keeps_getData|intros]. apply keeps_WaitForDestroy.
Qed.

Lemma keeps_blockDeviceMappings d : keeps (W:=World) (blockDeviceMappings d).
Proof. intros st. by rewrite blockDeviceMappings_state. Qed.

Lemma moves_Create_provenance : moves sameProvenance Create.
Proof.
  assert (forall A (c : M World A), keeps c -> moves sameProvenance c) as Hk.
  { intros A c. apply moves_keeps, _. }
  unfold resourceAwsAmiCreate.
  apply moves_bind; [apply _|apply Hk, keeps_getData|intros d].
  apply moves_bind; [apply _|apply Hk, keeps_blockDeviceMappings|intros mappings].
  apply moves_bind; [apply _|apply Hk, keeps_RegisterImage|intros [err|id]].
  { apply Hk, keeps_fail. }
  apply moves_bind; [apply _|by apply moves_modifyData|intros _].
  apply moves_bind; [apply _| |intros _].
  { apply Hk. destruct (bool_decide _); [|walk].
    apply keeps_bind; [apply keeps_catch, keeps_Ec2CreateTags|intros; walk]. }
  apply moves_bind; [apply _|apply Hk, keeps_WaitForAvailable|intros _].
  apply moves_Read; [apply _|by split..].
Qed.

(** The flag [manage_ebs_snapshots] and the new-resource mark are never
    written: each of Create, Read, Update and Delete ends, whatever its
    outcome, with the values it started with. *)
Theorem operations_never_write_manage_ebs_snapshots (st : St World) :
  sameProvenance (rd st) (rd (Create st).2) /\
  sameProvenance (rd st) (rd (Read st).2) /\
  sameProvenance (rd st) (rd (Update st).2) /\
  sameProvenance (rd st) (rd (Delete st).2).
Proof.
  split; [apply moves_Create_provenance|].
  split; [apply moves_Read; [apply _|by split..]|].
  split; [apply moves_Update; [apply _|by split..]|].
  by rewrite keeps_Delete.
Qed.

(** Read and Update never put another identifier into the state: they
    end with the identifier they started with, or with the empty one. *)
Theorem Read_and_Update_keep_or_clear_the_id (st : St World) :
  idKeptOrCleared (rd st) (rd (Read st).2) /\
  idKeptOrCleared (rd st) (rd (Update st).2).
Proof.
  split.
  - apply moves_Read; [apply _|by right|by left..].
  - apply moves_Update; [apply _|by right|by left..].
Qed.

(** Delete never writes the resource data, whatever its outcome: in
    particular it does not clear the identifier itself. *)
Theorem Delete_leaves_the_resource_data (st : St World) :
  rd (Delete st).2 = rd st.
Proof. apply keeps_Delete. Qed.

(** ** Create, continued *)

(** When RegisterImage answers with an error, Create returns that error
    as it is; the registration is the only call, and no identifier is
    recorded. *)
Theorem Create_register_error_records_nothing (st : St World) mappings err w :
  blockDeviceMappings (rd st) st = (Done mappings, st) ->
  ec2_RegisterImage client (registerImageInput (rd st) mappings) (remote st) = (inl err, w) ->
  Create st =
    (Failed err,
     Build_St (rd st) w
       (trace st ++ [RegisterImageCall (registerImageInput (rd st) mappings) (inl err)])).
Proof.
  intros Hm Hr. rewrite (Create_unfold _ _ _ _ _ _ _ _ st mappings Hm).
  by rewrite bind_unfold, (RegisterImage_run _ _ _ _ _ Hr).
Qed.

(** The request of every RegisterImage call of Create carries the name,
    the description, the architecture, the image location, the root
    device name, the network support, the virtualization type and the
    ENA flag as they are declared, an empty string included; the kernel
    and the ramdisk identifiers are carried exactly when they are not
    empty. *)
Theorem Create_request_omits_empty_kernel_and_ramdisk (st : St World) req res :
  In (RegisterImageCall req res) (newEvents st (Create st).2) ->
  let d := rd st in
  req_Name req = Some (d_name d) /\
  req_Description req = Some (d_description d) /\
  req_Architecture req = Some (d_architecture d) /\
  req_ImageLocation req = Some (d_image_location d) /\
  req_RootDeviceName req = Some (d_root_device_name d) /\
  req_SriovNetSupport req = Some (d_sriov_net_support d) /\
  req_VirtualizationType req = Some (d_virtualization_type d) /\
  req_EnaSupport req = Some (d_ena_support d) /\
  (forall k, req_KernelId req = Some k <-> d_kernel_id d = k /\ k <> "") /\
  (forall r, req_RamdiskId req = Some r <-> d_ramdisk_id d = r /\ r <> "").
Proof.
  intros Hin. apply Create_request in Hin as (mappings & _ & ->).
  cbv [registerImageInput req_Name req_Description req_Architecture req_ImageLocation
       req_RootDeviceName req_SriovNetSupport req_VirtualizationType req_EnaSupport
       req_KernelId req_RamdiskId aws_String aws_Bool].
  repeat (split; [done|]). split; intros v; case_bool_decide; naive_solver.
Qed.

Lemma ebsBlockDevMapping_snapshot e blockDev :
  ebsBlockDevMapping e = inr blockDev -> sendsSnapshotOrEncrypted e blockDev.
Proof.
  unfold ebsBlockDevMapping, sendsSnapshotOrEncrypted, aws_String, aws_Bool.
  case_bool_decide as Hs; destruct (encrypted e) eqn:He; intros [= <-]; simpl;
    eexists; (split; [done|]); simpl; repeat split; try done;
    try naive_solver.
Qed.

Lemma ebs_loop_mappings (l : list EbsBlockDev) acc (st st' : St World) mappings :
  foldM (fun acc ebsBlockDev =>
           match ebsBlockDevMapping ebsBlockDev with
           | inl err => fail err
           | inr blockDev => ret (acc ++ [blockDev])%list
           end) l acc st = (Done mappings, st') ->
  exists ebsMappings,
    mappings = (acc ++ ebsMappings)%list /\
    Forall2 (fun e blockDev => ebsBlockDevMapping e = inr blockDev) l ebsMappings.
Proof.
  revert acc. induction l as [|e l IH]; intros acc; simpl.
  - intros [= <- <-]. exists []. by rewrite app_nil_r.
  - rewrite bind_unfold.
    destruct (ebsBlockDevMapping e) as [err|blockDev] eqn:Hm; [done|]. simpl.
    intros H. apply IH in H as (ebsMappings & -> & HF).
    exists (blockDev :: ebsMappings). split; [by rewrite <- app_assoc|by constructor].
Qed.

(** No request of Create carries both a snapshot id and the encrypted
    flag for a device: the mapping of an EBS element carries the
    snapshot id exactly when one is declared, and the encrypted flag,
    as true, exactly when it is declared without a snapshot; the
    mappings of the ephemeral elements carry no EBS part. *)
Theorem Create_request_never_has_snapshot_and_encrypted (st : St World) req res :
  In (RegisterImageCall req res) (newEvents st (Create st).2) ->
  exists ebsMappings,
    req_BlockDeviceMappings req =
      (ebsMappings ++ map ephemeralBlockDevMapping (d_ephemeral_block_device (rd st)))%list /\
    Forall2 sendsSnapshotOrEncrypted (d_ebs_block_device (rd st)) ebsMappings /\
    Forall (fun blockDev => Ebs blockDev = None)
      (map ephemeralBlockDevMapping (d_ephemeral_block_device (rd st))).
Proof.
  intros Hin. apply Create_request in Hin as (mappings & Hm & ->).
  unfold blockDeviceMappings in Hm. rewrite bind_unfold in Hm.
  destruct (foldM _ (d_ebs_block_device (rd st)) [] st) as [[m|e|] st1] eqn:Hl; [|done..].
  apply ebs_loop_mappings in Hl as (ebsMappings & -> & HF).
  rewrite ephemeral_loop in Hm. injection Hm as <-.
  exists ebsMappings. split; [done|]. split.
  - eapply Forall2_impl; [exact HF|]. intros e bd. apply ebsBlockDevMapping_snapshot.
  - apply Forall_forall. intros bd Hbd. apply list_elem_of_In, in_map_iff in Hbd as (x & <- & _).
    done.
Qed.

(** Create registers at most once, and first: the calls it issues are
    none, or one RegisterImage call followed by tag and DescribeImages
    calls only, and by nothing at all when the registration failed.  It
    never deregisters, deletes a snapshot or modifies an attribute. *)
Theorem Create_registers_at_most_once (st : St World) :
  newEvents st (Create st).2 = [] \/
  exists req res rest,
    newEvents st (Create st).2 = RegisterImageCall req res :: rest /\
    Forall (fun e => isTagCall e \/ isDescribeImages e) rest /\
    (forall err, res = inl err -> rest = []).
Proof.
  pose proof (blockDeviceMappings_state (rd st) st) as Hst.
  destruct (blockDeviceMappings (rd st) st) as [[mappings|e|] st1] eqn:Hm;
    simpl in Hst; subst st1.
  - right. rewrite (Create_unfold _ _ _ _ _ _ _ _ st mappings Hm). rewrite bind_unfold.
    unfold RegisterImage at 1.
    destruct (ec2_RegisterImage client _ (remote st)) as [r w] eqn:Hr.
    exists (registerImageInput (rd st) mappings), r.
    destruct r as [err|id].
    + exists []. simpl. split; [|done].
      apply newEvents_app. done.
    + destruct (emits_Create_tail client partition region ignoreTags amiRootSnapshotId
                  attempts ebsSetList ephemeralSetList id (d_tags (rd st))
                  (emit (RegisterImageCall (registerImageInput (rd st) mappings) (inr id)) w st))
        as (evs & Ht & Hevs).
      exists evs. split; [|done].
      apply newEvents_app. rewrite Ht. simpl. by rewrite <- app_assoc.
  - left. unfold resourceAwsAmiCreate. rewrite bind_unfold. simpl. rewrite bind_unfold, Hm.
    unfold newEvents. simpl. by rewrite drop_all.
  - left. unfold resourceAwsAmiCreate. rewrite bind_unfold. simpl. rewrite bind_unfold, Hm.
    unfold newEvents. simpl. by rewrite drop_all.
Qed.

(** The identifier that Create leaves in the state is the one it
    started with, or one that a RegisterImage call of this run answered,
    or the empty one (when Read found the image gone). *)
Theorem Create_identifier_comes_from_the_registration (st : St World) :
  let id' := d_Id (rd (Create st).2) in
  id' = d_Id (rd st) \/ id' = "" \/
  exists req, In (RegisterImageCall req (inr id')) (newEvents st (Create st).2).
Proof.
  simpl.
  pose proof (blockDeviceMappings_state (rd st) st) as Hst.
  destruct (blockDeviceMappings (rd st) st) as [[mappings|e|] st1] eqn:Hm;
    simpl in Hst; subst st1.
  - rewrite (Create_unfold _ _ _ _ _ _ _ _ st mappings Hm). rewrite bind_unfold.
    destruct (ec2_RegisterImage client (registerImageInput (rd st) mappings) (remote st))
      as [[err|id] w] eqn:Hr; rewrite (RegisterImage_run _ _ _ _ _ Hr); [by left|].
    cbv beta iota.
    set (st1 := emit (RegisterImageCall (registerImageInput (rd st) mappings) (inr id)) w st).
    match goal with |- context [?c st1] => set (tail := c) end.
    destruct (emits_Create_tail client partition region ignoreTags amiRootSnapshotId
                attempts ebsSetList ephemeralSetList id (d_tags (rd st)) st1) as (evs & Ht & _).
    fold tail in Ht.
    assert (idKeptOrCleared (SetId id (rd st)) (rd (tail st1).2)) as Hid.
    { unfold tail. rewrite bind_unfold. simpl.
      set (st2 := Build_St (SetId id (rd st)) (remote st1) (trace st1)).
      change (SetId id (rd st)) with (rd st2).
      apply (moves_bind idKeptOrCleared).
      - apply moves_keeps; [apply _|]. destruct (bool_decide _); [|walk].
        apply keeps_bind; [apply keeps_catch, keeps_Ec2CreateTags|intros; walk].
      - intros _. apply moves_bind; [apply _| |].
        + apply moves_keeps; [apply _|apply keeps_WaitForAvailable].
        + intros _. apply moves_Read; [apply _|by right|by left..]. }
    destruct Hid as [Hid|Hid]; [|by right; left].
    right. right. simpl in Hid. rewrite Hid.
    exists (registerImageInput (rd st) mappings).
    rewrite (newEvents_app st _
               (RegisterImageCall (registerImageInput (rd st) mappings) (inr id) :: evs)).
    + by left.
    + rewrite Ht. unfold st1, emit. simpl. by rewrite <- app_assoc.
  - left. unfold resourceAwsAmiCreate. rewrite bind_unfold. simpl. by rewrite bind_unfold, Hm.
  - left. unfold resourceAwsAmiCreate. rewrite bind_unfold. simpl. by rewrite bind_unfold, Hm.
Qed.

(** ** Update, continued *)

Lemma emits_Ec2UpdateTags id o n : emits isTagCall (Ec2UpdateTags client id o n).
Proof.
  intros st. destruct (Ec2UpdateTags_events client id o n st) as (evs & ? & _ & ? & _).
  eauto.
Qed.

Lemma Update_events (P : Event -> Prop) (st : St World) :
  (HasChange_tags (rd st) = true -> forall e, isTagCall e -> P e) ->
  (d_description (rd st) <> "" -> forall e, isModifyImageAttribute e -> P e) ->
  (forall e, isDescribeImages e -> P e) ->
  Forall P (newEvents st (Update st).2).
Proof.
  intros Htag Hmod Hdesc.
  assert (emits P
            ((if HasChange_tags (rd st) then
                r ← catch (Ec2UpdateTags client (d_Id (rd st)) (d_tags_old (rd st))
                             (d_tags (rd st)));
                match r with
                | inl err =>
                    fail (ErrorString ("error updating AMI (" +:+ d_Id (rd st) +:+ ") tags: "
                                       +:+ Error err))
                | inr _ => ret tt
                end
              else ret tt);;
             (if bool_decide (d_description (rd st) ≠ "") then
                err ← ModifyImageAttribute client (d_Id (rd st)) (d_description (rd st));
                match err with
                | Some err => fail err
                | None => ret tt
                end
              else ret tt);;
             Read)) as Hem.
  { apply emits_bind.
    - destruct (HasChange_tags (rd st)); [|walk].
      apply emits_bind; [|intros; walk].
      apply emits_catch. eapply emits_weaken; [|apply emits_Ec2UpdateTags]. auto.
    - intros _. apply emits_bind.
      + case_bool_decide; [|walk].
        apply emits_bind; [|intros; walk].
        eapply emits_weaken; [|apply emits_ModifyImageAttribute]. auto.
      + intros _. eapply emits_weaken; [|apply emits_Read]. auto. }
  destruct (Hem st) as (evs & Ht & Hevs).
  by rewrite (newEvents_app st (Update st).2 evs Ht).
Qed.

(** Update issues tag calls, ModifyImageAttribute calls and
    DescribeImages calls only; no tag call when the tags did not change,
    no ModifyImageAttribute call when the description is empty; and
    when neither applies Update is Read. *)
Theorem Update_issues_only_what_is_needed (st : St World) :
  let evs := newEvents st (Update st).2 in
  Forall (fun e => isTagCall e \/ isModifyImageAttribute e \/ isDescribeImages e) evs /\
  (HasChange_tags (rd st) = false ->
   Forall (fun e => isModifyImageAttribute e \/ isDescribeImages e) evs) /\
  (d_description (rd st) = "" ->
   Forall (fun e => isTagCall e \/ isDescribeImages e) evs) /\
  (HasChange_tags (rd st) = false -> d_description (rd st) = "" -> Update st = Read st).
Proof.
  simpl. split; [apply Update_events; auto|].
  split; [intros Hc; apply Update_events; [congruence|auto..]|].
  split; [intros Hd; apply Update_events; [auto|congruence|auto]|].
  intros Hc Hd. unfold resourceAwsAmiUpdate. rewrite bind_unfold. simpl.
  rewrite Hc, Hd. by rewrite !bind_unfold.
Qed.

(** When the ModifyImageAttribute call of Update fails, Update returns
    that error as it is and does not read the image again. *)
Theorem Update_modify_error_skips_read (st : St World) err w :
  HasChange_tags (rd st) = false ->
  d_description (rd st) <> "" ->
  ec2_ModifyImageAttribute client (d_Id (rd st)) (d_description (rd st)) (remote st)
    = (Some err, w) ->
  Update st =
    (Failed err,
     Build_St (rd st) w
       (trace st ++ [ModifyImageAttributeCall (d_Id (rd st)) (d_description (rd st))
                       (Some err)])).
Proof.
  intros Hc Hd Hm. unfold resourceAwsAmiUpdate. rewrite bind_unfold. simpl.
  rewrite Hc. rewrite bind_unfold. simpl. rewrite bool_decide_true by done.
  rewrite !bind_unfold. unfold ModifyImageAttribute. by rewrite Hm.
Qed.

(** ** Delete, continued *)

Lemma emits_deleteSnapshotOf errs ebsBlockDev :
  emits isDeleteSnapshot (deleteSnapshotOf client errs ebsBlockDev).
Proof. unfold deleteSnapshotOf. walk. Qed.

(** Delete starts with the DeregisterImage call and issues no second
    one; what follows are DeleteSnapshot and DescribeImages calls only,
    no DeleteSnapshot call at all when [manage_ebs_snapshots] is not
    set, and nothing when the deregistration failed. *)
Theorem Delete_deregisters_once_then_cleans_up (st : St World) :
  exists err rest,
    newEvents st (Delete st).2 = DeregisterImageCall (d_Id (rd st)) err :: rest /\
    Forall (fun e => isDeleteSnapshot e \/ isDescribeImages e) rest /\
    (d_manage_ebs_snapshots (rd st) = false -> Forall isDescribeImages rest) /\
    (err <> None -> rest = []).
Proof.
  destruct (ec2_DeregisterImage client (d_Id (rd st)) (remote st)) as [[err|] w] eqn:Hd.
  - exists (Some err), []. split; [|done].
    unfold resourceAwsAmiDelete. rewrite bind_unfold. simpl. rewrite bind_unfold.
    rewrite (DeregisterImage_run _ _ _ _ _ Hd). by apply newEvents_app.
  - rewrite (Delete_unfold _ _ _ st w Hd).
    set (st1 := Build_St (rd st) w (trace st ++ [DeregisterImageCall (d_Id (rd st)) None])).
    assert (forall P : Event -> Prop,
              (d_manage_ebs_snapshots (rd st) = true -> forall e, isDeleteSnapshot e -> P e) ->
              (forall e, isDescribeImages e -> P e) ->
              emits P
                ((if d_manage_ebs_snapshots (rd st) then
                    errs ← foldM (deleteSnapshotOf client) (d_ebs_block_device (rd st)) ∅;
                    if bool_decide (0 < size errs)%nat then
                      fail (ErrorString (Join (snapshotErrorParts rangeErrs errs) newline))
                    else ret tt
                  else ret tt);;
                 d ← getData;
                 WaitForDestroy TimeoutDelete (d_Id d))) as Hem.
    { intros P Hsnap Hdesc. apply emits_bind.
      - destruct (d_manage_ebs_snapshots (rd st)); [|walk].
        apply emits_bind; [|intros; walk].
        apply emits_foldM. intros. eapply emits_weaken; [|apply emits_deleteSnapshotOf]. auto.
      - intros _. apply emits_bind; [walk|intros].
        eapply emits_weaken; [|apply emits_WaitForDestroy]. auto. }
    destruct (Hem (fun e => isDeleteSnapshot e \/ isDescribeImages e)) with (st := st1)
      as (evs & Ht & Hevs); [auto..|].
    exists None, evs. split.
    { apply newEvents_app. rewrite Ht. unfold st1. simpl. by rewrite <- app_assoc. }
    split; [done|]. split; [|done].
    intros Hm.
    destruct (Hem isDescribeImages) with (st := st1) as (evs' & Ht' & Hevs');
      [congruence|auto|].
    rewrite Ht in Ht'. by apply app_inv_head in Ht' as ->.
Qed.

(** ** The two waits, continued *)

Lemma AMIStateRefreshFunc_one_call id (st : St World) :
  exists ev,
    isDescribeImages ev /\
    trace (AMIStateRefreshFunc client id st).2 = (trace st ++ [ev])%list.
Proof.
  unfold AMIStateRefreshFunc. rewrite bind_unfold. unfold DescribeImages.
  destruct (ec2_DescribeImages client id (remote st)) as [[out err] w].
  exists (DescribeImagesCall id out err). split; [done|].
  destruct err as [err|]; simpl.
  - destruct (isAWSErr err _); [done|]. by case_bool_decide.
  - destruct (Images out) as [|image rest]; [done|].
    rewrite bind_unfold. by destruct (State image).
Qed.

Lemma WaitForState_loop_unfold (conf : @StateChangeConf World) n (st : St World) :
  WaitForState_loop conf n st =
  match Refresh conf st with
  | (Done (res, currentState), st') =>
      if bool_decide (currentState ∈ Target conf) then (Done res, st')
      else if bool_decide (currentState ∈ Pending conf) then
        match n with
        | O => (Failed (TimeoutError currentState), st')
        | S n' => WaitForState_loop conf n' st'
        end
      else (Failed (UnexpectedStateError currentState), st')
  | (Failed e, st') => (Failed e, st')
  | (Panicked, st') => (Panicked, st')
  end.
Proof.
  destruct n; simpl; rewrite bind_unfold;
    destruct (Refresh conf st) as [[[res s]|e|] st']; simpl;
    by repeat case_bool_decide.
Qed.

Lemma WaitForState_loop_probes (conf : @StateChangeConf World) n (st : St World) :
  (forall s, exists ev,
     isDescribeImages ev /\ trace (Refresh conf s).2 = (trace s ++ [ev])%list) ->
  exists evs,
    trace (WaitForState_loop conf n st).2 = (trace st ++ evs)%list /\
    Forall isDescribeImages evs /\
    (1 <= length evs <= S n)%nat.
Proof.
  intros HR. revert st. induction n as [|n IH]; intros st; simpl; rewrite bind_unfold;
    destruct (HR st) as (ev & Hev & Ht);
    destruct (Refresh conf st) as [[[res state]|e|] st1]; simpl in *;
    try (exists [ev]; repeat split; [done|by repeat constructor|simpl; lia..]).
  - repeat case_bool_decide; simpl;
      exists [ev]; repeat split; try done; try (by repeat constructor); simpl; lia.
  - case_bool_decide; [exists [ev]; repeat split; [done|by repeat constructor|simpl; lia..]|].
    case_bool_decide; [|exists [ev]; repeat split; [done|by repeat constructor|simpl; lia..]].
    destruct (IH st1) as (evs & Ht' & Hevs & Hlen).
    exists (ev :: evs). split; [by rewrite Ht', Ht, <- app_assoc|].
    split; [by constructor|]. simpl. lia.
Qed.

Lemma WaitForAvailable_probes (st : St World) t id :
  exists evs,
    trace (WaitForAvailable t id st).2 = (trace st ++ evs)%list /\
    Forall isDescribeImages evs /\
    (1 <= length evs <= S (attempts t))%nat.
Proof.
  destruct (WaitForState_loop_probes (availableConf client t id) (attempts t) st)
    as (evs & Ht & Hall & Hlen); [intros s; apply AMIStateRefreshFunc_one_call|].
  exists evs. split; [|done].
  unfold resourceAwsAmiWaitForAvailable, WaitForState. rewrite bind_unfold. unfold catch.
  change (attempts (Timeout (availableConf client t id))) with (attempts t).
  destruct (WaitForState_loop (availableConf client t id) (attempts t) st)
    as [[[resp|image]|e|] st1]; exact Ht.
Qed.

Lemma WaitForDestroy_probes (st : St World) t id :
  exists evs,
    trace (WaitForDestroy t id st).2 = (trace st ++ evs)%list /\
    Forall isDescribeImages evs /\
    (1 <= length evs <= S (attempts t))%nat.
Proof.
  destruct (WaitForState_loop_probes (destroyConf client t id) (attempts t) st)
    as (evs & Ht & Hall & Hlen); [intros s; apply AMIStateRefreshFunc_one_call|].
  exists evs. split; [|done].
  unfold resourceAwsAmiWaitForDestroy, WaitForState. rewrite bind_unfold. unfold catch.
  change (attempts (Timeout (destroyConf client t id))) with (attempts t).
  destruct (WaitForState_loop (destroyConf client t id) (attempts t) st)
    as [[res|e|] st1]; exact Ht.
Qed.

Lemma emits_AMIStateRefreshFunc_of id :
  emits (isDescribeImagesOf id) (AMIStateRefreshFunc client id).
Proof.
  unfold AMIStateRefreshFunc. apply emits_bind; [|intros [resp err]; walk].
  intros st. unfold DescribeImages.
  destruct (ec2_DescribeImages client id (remote st)) as [[out err] w]. simpl.
  eexists. split; [done|]. by repeat constructor.
Qed.

(** Each of the two waits only probes the image it waits for: every
    call it issues is a DescribeImages call for that identifier, and it
    leaves the resource data alone. *)
Theorem waits_only_probe_their_image (st : St World) t id :
  let available := (WaitForAvailable t id st).2 in
  let destroyed := (WaitForDestroy t id st).2 in
  Forall (isDescribeImagesOf id) (newEvents st available) /\
  rd available = rd st /\
  Forall (isDescribeImagesOf id) (newEvents st destroyed) /\
  rd destroyed = rd st.
Proof.
  simpl.
  assert (emits (isDescribeImagesOf id) (WaitForAvailable t id)) as HA.
  { unfold resourceAwsAmiWaitForAvailable, WaitForState.
    apply emits_bind; [|intros; walk].
    apply emits_catch, emits_WaitForState_loop, emits_AMIStateRefreshFunc_of. }
  assert (emits (isDescribeImagesOf id) (WaitForDestroy t id)) as HD.
  { unfold resourceAwsAmiWaitForDestroy, WaitForState.
    apply emits_bind; [|intros; walk].
    apply emits_catch, emits_WaitForState_loop, emits_AMIStateRefreshFunc_of. }
  destruct (HA st) as (evsA & HtA & HallA). destruct (HD st) as (evsD & HtD & HallD).
  rewrite (newEvents_app st _ evsA HtA), (newEvents_app st _ evsD HtD).
  rewrite keeps_WaitForAvailable, keeps_WaitForDestroy. done.
Qed.

(** The image that the wait for availability returns is in the state
    "available". *)
Theorem WaitForAvailable_returns_an_available_image (st st' : St World) t id image :
  WaitForAvailable t id st = (Done image, st') ->
  State image = Some ImageStateAvailable.
Proof.
  unfold resourceAwsAmiWaitForAvailable, WaitForState. rewrite bind_unfold. unfold catch.
  destruct (WaitForState_loop _ _ st) as [[[resp|image']|e|] st1] eqn:HW; try done.
  intros [= <- <-].
  apply WaitForState_loop_Done in HW as (st0 & state & HR & Hin).
  simpl in HR, Hin. destruct Hin as [<-|[]].
  revert HR. unfold AMIStateRefreshFunc. rewrite bind_unfold.
  destruct (DescribeImages client id st0) as [[[out err]|e|] s1]; [|done..].
  destruct err as [err|].
  - destruct (isAWSErr err _); [done|]. by case_bool_decide.
  - destruct (Images out) as [|image0 rest]; [done|].
    rewrite bind_unfold. destruct (State image0) as [s|] eqn:Hs; [|done].
    simpl. by intros [= <- <- <-].
Qed.

(** The wait for "destroyed" takes a DescribeImages call that failed
    without decoding an image for the image being gone, whatever the
    error is, and returns nil after this one probe; so it does for the
    "not found" error. *)
Theorem WaitForDestroy_takes_an_error_without_images_for_destroyed
    (st : St World) t id out err w :
  ec2_DescribeImages client id (remote st) = ((out, Some err), w) ->
  Images out = [] \/ isAWSErr err "InvalidAMIID.NotFound" = true ->
  WaitForDestroy t id st =
    (Done tt, Build_St (rd st) w (trace st ++ [DescribeImagesCall id out (Some err)])).
Proof.
  intros Hd Hgone.
  assert (AMIStateRefreshFunc client id st
          = (Done (RefreshOutput {| Images := [] |}, "destroyed"),
             Build_St (rd st) w (trace st ++ [DescribeImagesCall id out (Some err)]))) as HR.
  { unfold AMIStateRefreshFunc. rewrite bind_unfold, (DescribeImages_run _ _ _ _ _ _ Hd).
    simpl. destruct (isAWSErr err _); [done|].
    destruct Hgone as [->|?]; [|done]. by rewrite bool_decide_true. }
  unfold resourceAwsAmiWaitForDestroy, WaitForState. rewrite bind_unfold. unfold catch.
  destruct (attempts _); simpl; rewrite bind_unfold; simpl; by rewrite HR.
Qed.

(** A probe that shows the image in a status outside the pending and
    target sets of a wait ends the wait at once, with an error that
    names the status: any status but "pending" and "available" for the
    wait for availability, any status but "available", "pending",
    "failed" and "destroyed" for the wait for "destroyed". *)
Theorem waits_fail_at_once_on_an_unexpected_status
    (st : St World) t id out image rest s w :
  ec2_DescribeImages client id (remote st) = ((out, None), w) ->
  Images out = image :: rest ->
  State image = Some s ->
  let probed := Build_St (rd st) w (trace st ++ [DescribeImagesCall id out None]) in
  (s <> ImageStatePending -> s <> ImageStateAvailable ->
   WaitForAvailable t id st =
     (Failed (ErrorString ("Error waiting for AMI (" +:+ id +:+ ") to be ready: "
                           +:+ Error (UnexpectedStateError s))), probed)) /\
  (s <> ImageStateAvailable -> s <> ImageStatePending -> s <> ImageStateFailed ->
   s <> "destroyed" ->
   WaitForDestroy t id st =
     (Failed (ErrorString ("Error waiting for AMI (" +:+ id +:+ ") to be deleted: "
                           +:+ Error (UnexpectedStateError s))), probed)).
Proof.
  clear partition region ignoreTags amiRootSnapshotId rangeErrs.
  intros Hd Hi Hs. simpl.
  assert (AMIStateRefreshFunc client id st
          = (Done (RefreshImage image, s),
             Build_St (rd st) w (trace st ++ [DescribeImagesCall id out None]))) as HR.
  { unfold AMIStateRefreshFunc. rewrite bind_unfold, (DescribeImages_run _ _ _ _ _ _ Hd).
    simpl. rewrite Hi, bind_unfold, Hs. done. }
  split.
  - intros Hp Ha.
    unfold resourceAwsAmiWaitForAvailable, WaitForState. rewrite bind_unfold. unfold catch.
    destruct (attempts _); simpl; rewrite bind_unfold; simpl; rewrite HR;
      rewrite !bool_decide_false; try done; set_solver.
  - intros Ha Hp Hf Hdestroyed.
    unfold resourceAwsAmiWaitForDestroy, WaitForState. rewrite bind_unfold. unfold catch.
    destruct (attempts _); simpl; rewrite bind_unfold; simpl; rewrite HR;
      rewrite !bool_decide_false; try done; set_solver.
Qed.

(** A pending image is polled again: when the first probe shows the
    image pending, the timeout leaves room for another poll and the
    second probe shows it available, the wait returns the image of the
    second probe after these two calls. *)
Theorem WaitForAvailable_polls_a_pending_image_again
    (st : St World) t id out1 image1 rest1 w1 out2 image2 rest2 w2 :
  attempts t <> 0%nat ->
  ec2_DescribeImages client id (remote st) = ((out1, None), w1) ->
  Images out1 = image1 :: rest1 ->
  State image1 = Some ImageStatePending ->
  ec2_DescribeImages client id w1 = ((out2, None), w2) ->
  Images out2 = image2 :: rest2 ->
  State image2 = Some ImageStateAvailable ->
  WaitForAvailable t id st =
    (Done image2,
     Build_St (rd st) w2
       (trace st ++ [DescribeImagesCall id out1 None; DescribeImagesCall id out2 None])).
Proof.
  intros Hn Hd1 Hi1 Hs1 Hd2 Hi2 Hs2.
  set (st1 := Build_St (rd st) w1 (trace st ++ [DescribeImagesCall id out1 None])).
  assert (AMIStateRefreshFunc client id st = (Done (RefreshImage image1, "pending"), st1))
    as HR1.
  { unfold AMIStateRefreshFunc. rewrite bind_unfold, (DescribeImages_run _ _ _ _ _ _ Hd1).
    simpl. rewrite Hi1, bind_unfold, Hs1. done. }
  assert (AMIStateRefreshFunc client id st1
          = (Done (RefreshImage image2, "available"),
             Build_St (rd st) w2
               (trace st ++ [DescribeImagesCall id out1 None; DescribeImagesCall id out2 None])))
    as HR2.
  { unfold AMIStateRefreshFunc. rewrite bind_unfold.
    rewrite (DescribeImages_run client id st1 out2 None w2 Hd2).
    simpl. rewrite Hi2, bind_unfold, Hs2. unfold st1, emit. simpl. by rewrite <- app_assoc. }
  unfold resourceAwsAmiWaitForAvailable, WaitForState. rewrite bind_unfold. unfold catch.
  change (attempts (Timeout (availableConf client t id))) with (attempts t).
  destruct (attempts t) as [|n]; [done|].
  rewrite WaitForState_loop_unfold.
  change (Refresh (availableConf client t id)) with (AMIStateRefreshFunc client id).
  rewrite HR1. simpl.
  rewrite WaitForState_loop_unfold.
  change (Refresh (availableConf client t id)) with (AMIStateRefreshFunc client id).
  by rewrite HR2.
Qed.

(** When every probe shows the image pending, the wait for availability
    gives up after one poll more than the further polls that fit into
    the timeout, with a timeout error that carries the last status,
    "pending". *)
Theorem WaitForAvailable_times_out_with_the_last_status (st : St World) t id :
  (forall w, exists out image rest w',
     ec2_DescribeImages client id w = ((out, None), w') /\
     Images out = image :: rest /\ State image = Some ImageStatePending) ->
  (WaitForAvailable t id st).1 =
    Failed (ErrorString ("Error waiting for AMI (" +:+ id +:+ ") to be ready: "
                         +:+ Error (TimeoutError ImageStatePending))) /\
  length (newEvents st (WaitForAvailable t id st).2) = S (attempts t).
Proof.
  intros Hpending.
  assert (forall n (s : St World), exists s' evs,
            WaitForState_loop (availableConf client t id) n s
              = (Failed (TimeoutError ImageStatePending), s') /\
            trace s' = (trace s ++ evs)%list /\ length evs = S n) as Hloop.
  { induction n as [|n IH]; intros s;
      destruct (Hpending (remote s)) as (out & image & rest & w' & Hd & Hi & Hs);
      simpl; rewrite bind_unfold; unfold AMIStateRefreshFunc at 1;
      rewrite bind_unfold, (DescribeImages_run _ _ _ _ _ _ Hd); simpl;
      rewrite Hi, bind_unfold, Hs; simpl.
    - eexists _, [_]. by repeat split.
    - destruct (IH (emit (DescribeImagesCall id out None) w' s))
        as (s' & evs & HW & Ht & Hlen).
      exists s', (DescribeImagesCall id out None :: evs). rewrite HW. split; [done|].
      rewrite Ht. unfold emit. simpl. rewrite <- app_assoc. split; [done|]. by rewrite Hlen. }
  destruct (Hloop (attempts t) st) as (s' & evs & HW & Ht & Hlen).
  unfold resourceAwsAmiWaitForAvailable, WaitForState. rewrite !bind_unfold. unfold catch.
  change (attempts (Timeout (availableConf client t id))) with (attempts t).
  rewrite HW. simpl. split; [done|]. by rewrite (newEvents_app st s' evs Ht).
Qed.

(** ** Read, continued *)

Lemma Retry_loop_nonretryable {T} (f : M World (T * option RetryError)) n st res e st1 :
  f st = (Done (res, Some (NonRetryableError e)), st1) ->
  Retry_loop f n st = (Done (res, Some e), st1).
Proof. intros H. destruct n; simpl; by rewrite bind_unfold, H. Qed.

(** When the DescribeImages call of Read fails with an error other than
    "not found", Read returns at once "Unable to find AMI after
    retries:" with that error, for a resource marked new as for any
    other; the identifier stays. *)
Theorem Read_describe_error_is_not_retried (st : St World) out err w :
  ec2_DescribeImages client (d_Id (rd st)) (remote st) = ((out, Some err), w) ->
  isAWSErr err "InvalidAMIID.NotFound" = false ->
  isResourceTimeoutError (Some err) = false ->
  Read st =
    (Failed (ErrorString ("Unable to find AMI after retries: " +:+ Error err)),
     Build_St (rd st) w (trace st ++ [DescribeImagesCall (d_Id (rd st)) out (Some err)])).
Proof.
  intros Hd He Ht.
  unfold resourceAwsAmiRead, Retry. rewrite bind_unfold. simpl. rewrite bind_unfold.
  erewrite Retry_loop_nonretryable; cycle 1.
  { unfold readAttempt. rewrite bind_unfold, (DescribeImages_run _ _ _ _ _ _ Hd).
    by rewrite He. }
  rewrite bind_unfold, Ht. done.
Qed.

(** On a resource marked new whose image is never found, Read asks
    once and asks again as often as fits into the minute of the retry;
    it then returns "Unable to find AMI after retries:" with the "not
    found" error that the last call answered, without a further call;
    the identifier stays. *)
Theorem Read_retries_not_found_on_a_new_resource_then_fails (st : St World) :
  d_IsNewResource (rd st) = true ->
  (forall w, exists out err w',
     ec2_DescribeImages client (d_Id (rd st)) w = ((out, Some err), w') /\
     isAWSErr err "InvalidAMIID.NotFound" = true) ->
  exists out err,
    isAWSErr err "InvalidAMIID.NotFound" = true /\
    (Read st).1 = Failed (ErrorString ("Unable to find AMI after retries: " +:+ Error err)) /\
    rd (Read st).2 = rd st /\
    Forall isDescribeImages (newEvents st (Read st).2) /\
    last (newEvents st (Read st).2) = Some (DescribeImagesCall (d_Id (rd st)) out (Some err)) /\
    length (newEvents st (Read st).2) = S (attempts OneMinute).
Proof.
  intros Hnew Hlost.
  assert (forall n (s : St World), rd s = rd st -> exists res out err s' evs,
            Retry_loop (readAttempt client (d_Id (rd st))) n s = (Done (res, Some err), s') /\
            isAWSErr err "InvalidAMIID.NotFound" = true /\
            rd s' = rd st /\
            trace s' = (trace s ++ evs)%list /\ Forall isDescribeImages evs /\
            last evs = Some (DescribeImagesCall (d_Id (rd st)) out (Some err)) /\
            length evs = S n) as Hloop.
  { induction n as [|n IH]; intros s Hs;
      destruct (Hlost (remote s)) as (out & err & w' & Hd & He);
      simpl; rewrite bind_unfold; unfold readAttempt at 1;
      rewrite bind_unfold, (DescribeImages_run _ _ _ _ _ _ Hd); simpl;
      rewrite He, bind_unfold; simpl; rewrite Hs, Hnew; simpl.
    - exists out, out, err, (emit (DescribeImagesCall (d_Id (rd st)) out (Some err)) w' s),
        [DescribeImagesCall (d_Id (rd st)) out (Some err)].
      repeat split; [exact He|exact Hs|by repeat constructor].
    - destruct (IH (emit (DescribeImagesCall (d_Id (rd st)) out (Some err)) w' s) Hs)
        as (res & out' & err' & s' & evs & HW & He' & Hrd & Ht & Hall & Hlast & Hlen).
      exists res, out', err', s', (DescribeImagesCall (d_Id (rd st)) out (Some err) :: evs).
      rewrite HW. split; [done|]. split; [done|]. split; [done|].
      rewrite Ht. unfold emit. simpl. rewrite <- app_assoc.
      split; [done|]. split; [by constructor|]. split; [|by rewrite Hlen].
      destruct evs as [|e evs]; [discriminate Hlen|exact Hlast]. }
  destruct (Hloop (attempts OneMinute) st eq_refl)
    as (res & out & err & s' & evs & HW & He & Hrd & Ht & Hall & Hlast & Hlen).
  exists out, err. split; [done|].
  unfold resourceAwsAmiRead, Retry. rewrite bind_unfold. simpl. rewrite bind_unfold, HW.
  rewrite bind_unfold.
  assert (isResourceTimeoutError (Some err) = false) as ->
    by (by destruct err).
  simpl. split; [done|]. split; [done|].
  by rewrite (newEvents_app st s' evs Ht).
Qed.

(** When the one image that DescribeImages answers is in a state other
    than "pending", "deregistered" and "available" (as "failed"), Read
    returns the error "AMI has become" with that state; the identifier
    stays and nothing is written. *)
Theorem Read_fails_on_an_unexpected_state (st : St World) out image s w :
  ec2_DescribeImages client (d_Id (rd st)) (remote st) = ((out, None), w) ->
  Images out = [image] ->
  State image = Some s ->
  s <> ImageStatePending -> s <> ImageStateDeregistered -> s <> ImageStateAvailable ->
  Read st =
    (Failed (ErrorString ("AMI has become " +:+ s)),
     Build_St (rd st) w (trace st ++ [DescribeImagesCall (d_Id (rd st)) out None])).
Proof.
  intros Hd Himg Hstate Hp Hdereg Ha.
  unfold resourceAwsAmiRead, Retry. rewrite bind_unfold. simpl. rewrite bind_unfold.
  erewrite Retry_loop_first; cycle 1.
  { unfold readAttempt. by rewrite bind_unfold, (DescribeImages_run _ _ _ _ _ _ Hd). }
  rewrite bind_unfold. simpl. rewrite Himg. simpl.
  rewrite !bind_unfold. simpl. rewrite Hstate. simpl.
  rewrite bind_unfold. cbn [deref]. rewrite bind_unfold.
  rewrite (bool_decide_false (s = ImageStatePending)) by done. cbn [ret].
  rewrite (bool_decide_false (s = ImageStateDeregistered)) by done.
  by rewrite (bool_decide_true (s ≠ ImageStateAvailable)).
Qed.

(** *** The block device mappings of the observed image *)

Lemma flattenBlockDev_cases acc blockDev (st : St World) :
  (populated blockDev /\
   exists acc',
     flattenBlockDev acc blockDev st = (Done acc', st) /\
     ((exists e, flattensTo blockDev e /\ acc' = ((acc.1 ++ [e])%list, acc.2)) \/
      (exists e, flattensToEphemeral blockDev e /\ acc' = (acc.1, (acc.2 ++ [e])%list)))) \/
  (~ populated blockDev /\ flattenBlockDev acc blockDev st = (Panicked, st)).
Proof.
  destruct acc as [ebsBlockDevs ephemeralBlockDevs].
  destruct blockDev as [dn vn [[dot enc iop snap size vt]|]];
    unfold flattenBlockDev, populated, flattensTo, flattensToEphemeral; simpl.
  - destruct dn as [dn|]; [|right; split; [by intros [[? [=]] _]|done]].
    destruct dot as [dot|]; [|right; split; [by intros (_ & [? [=]] & _)|done]].
    destruct enc as [enc|]; [|right; split; [by intros (_ & _ & [? [=]] & _)|done]].
    destruct size as [size|]; [|right; split; [by intros (_ & _ & _ & [? [=]] & _)|done]].
    destruct vt as [vt|]; [|right; split; [by intros (_ & _ & _ & _ & [? [=]])|done]].
    left. split; [by repeat split|].
    eexists. split; [done|]. left. eexists. split; [|done].
    eexists. by repeat split.
  - destruct dn as [dn|]; [|right; split; [by intros [[? [=]] _]|done]].
    destruct vn as [vn|]; [|right; split; [by intros [_ [? [=]]]|done]].
    left. split; [by repeat split|].
    eexists. split; [done|]. right.
    by exists {| eph_device_name := dn; eph_virtual_name := vn |}.
Qed.

Lemma flatten_loop_populated l acc (st : St World) :
  Forall populated l ->
  exists ebsBlockDevs ephemeralBlockDevs,
    foldM flattenBlockDev l acc st
      = (Done ((acc.1 ++ ebsBlockDevs)%list, (acc.2 ++ ephemeralBlockDevs)%list), st) /\
    Forall2 flattensTo (filter (fun blockDev => is_Some (Ebs blockDev)) l) ebsBlockDevs /\
    Forall2 flattensToEphemeral (filter (fun blockDev => ~ is_Some (Ebs blockDev)) l)
      ephemeralBlockDevs.
Proof.
  revert acc. induction l as [|x l IH]; intros acc Hall.
  - exists [], []. simpl. rewrite !app_nil_r. by destruct acc.
  - apply Forall_cons in Hall as [Hx Hall]. simpl. rewrite bind_unfold.
    destruct (flattenBlockDev_cases acc x st) as [(_ & acc' & -> & Hacc)|[Hno _]]; [|done].
    destruct (IH acc' Hall) as (ebs & eph & -> & Hebs & Heph).
    rewrite !filter_cons.
    destruct Hacc as [(e & He & ->)|(e & He & ->)]; simpl.
    + exists (e :: ebs), eph. rewrite <- app_assoc. simpl.
      destruct He as (ebs0 & HE & Hrest).
      rewrite decide_True by (by rewrite HE). rewrite decide_False by (rewrite HE; by intros []).
      split; [done|]. split; [|done]. constructor; [|done]. by exists ebs0.
    + exists ebs, (e :: eph). rewrite <- app_assoc. simpl.
      destruct He as (HE & Hrest).
      rewrite decide_False by (rewrite HE; by intros [? [=]]).
      rewrite decide_True by (rewrite HE; by intros [? [=]]).
      split; [done|]. split; [done|]. by constructor.
Qed.

Lemma flatten_loop_unpopulated l acc (st : St World) :
  ~ Forall populated l -> foldM flattenBlockDev l acc st = (Panicked, st).
Proof.
  revert acc. induction l as [|x l IH]; intros acc Hall.
  - by destruct Hall.
  - simpl. rewrite bind_unfold.
    destruct (flattenBlockDev_cases acc x st) as [(Hx & acc' & -> & _)|[_ ->]]; [|done].
    apply IH. intros Hl. apply Hall. by constructor.
Qed.

Lemma flattenBlockDev_pure acc blockDev (st s : St World) :
  flattenBlockDev acc blockDev s = ((flattenBlockDev acc blockDev st).1, s).
Proof.
  destruct acc as [ebsBlockDevs ephemeralBlockDevs].
  destruct blockDev as [dn vn [[dot enc iop snap size vt]|]]; unfold flattenBlockDev; simpl.
  - by destruct dn, dot, enc, size, vt.
  - by destruct dn, vn.
Qed.

Lemma flatten_loop_pure l acc (st s : St World) :
  foldM flattenBlockDev l acc s = ((foldM flattenBlockDev l acc st).1, s).
Proof.
  revert acc st s. induction l as [|x l IH]; intros acc st s; simpl; [done|].
  rewrite !bind_unfold. rewrite (flattenBlockDev_pure acc x st s).
  destruct (flattenBlockDev acc x st) as [[acc'|e|] st1]; simpl; [|done..].
  apply IH.
Qed.

(** What Read does with one available image. *)
Lemma Read_available_run (st : St World) out image w :
  ec2_DescribeImages client (d_Id (rd st)) (remote st) = ((out, None), w) ->
  Images out = [image] ->
  State image = Some ImageStateAvailable ->
  let st0 :=
    Build_St (setImageAttributes amiRootSnapshotId image
                (imageArn partition region (d_Id (rd st))) (rd st))
      w (trace st ++ [DescribeImagesCall (d_Id (rd st)) out None]) in
  Read st =
    match (foldM flattenBlockDev (img_BlockDeviceMappings image) ([], []) st0).1 with
    | Done (ebsBlockDevs, ephemeralBlockDevs) =>
        (Done tt,
         Build_St (setBlockDevicesAndTags (ebsSetList ebsBlockDevs)
                     (ephemeralSetList ephemeralBlockDevs)
                     (ignoreTags (img_Tags image)) (rd st0)) w (trace st0))
    | Failed e => (Failed e, st0)
    | Panicked => (Panicked, st0)
    end.
Proof.
  intros Hd Himg Hstate. simpl.
  unfold resourceAwsAmiRead, Retry. rewrite bind_unfold. simpl. rewrite bind_unfold.
  erewrite Retry_loop_first; cycle 1.
  { unfold readAttempt. by rewrite bind_unfold, (DescribeImages_run _ _ _ _ _ _ Hd). }
  rewrite bind_unfold. simpl. rewrite Himg. simpl.
  rewrite !bind_unfold. simpl. rewrite Hstate. simpl.
  rewrite bind_unfold. cbn [deref]. rewrite !bind_unfold. simpl.
  rewrite bind_unfold. cbn [getData]. rewrite bind_unfold.
  cbn [modifyData emit rd remote trace]. rewrite bind_unfold.
  set (st0 := Build_St _ w _).
  pose proof (flatten_loop_pure (img_BlockDeviceMappings image) ([], []) st0 st0) as Hpure.
  destruct (foldM flattenBlockDev (img_BlockDeviceMappings image) ([], []) st0)
    as [r s1]. simpl in Hpure. injection Hpure as ->.
  by destruct r as [[ebs eph]|e|].
Qed.

(** On one available image Read returns nil and stores the attributes
    of the image, its tags after the tag filter and the two block
    device sets.  The slice that it hands to [d.Set] for
    [ebs_block_device] has one element for each mapping with an EBS
    part, the slice for [ephemeral_block_device] one element for each
    other mapping, both in the order of the image; what is stored is
    the set made of each slice, not the slice.  The identifier stays.
    This is so when every mapping carries the fields that Read
    dereferences; when one does not, Read panics after it has stored
    the attributes. *)
Theorem Read_stores_the_observed_image (st : St World) out image w :
  ec2_DescribeImages client (d_Id (rd st)) (remote st) = ((out, None), w) ->
  Images out = [image] ->
  State image = Some ImageStateAvailable ->
  let observed :=
    setImageAttributes amiRootSnapshotId image
      (imageArn partition region (d_Id (rd st))) (rd st) in
  let log := (trace st ++ [DescribeImagesCall (d_Id (rd st)) out None])%list in
  (Forall populated (img_BlockDeviceMappings image) ->
   exists ebsBlockDevs ephemeralBlockDevs,
     Read st =
       (Done tt,
        Build_St (setBlockDevicesAndTags (ebsSetList ebsBlockDevs)
                    (ephemeralSetList ephemeralBlockDevs)
                    (ignoreTags (img_Tags image)) observed) w log) /\
     Forall2 flattensTo
       (filter (fun blockDev => is_Some (Ebs blockDev)) (img_BlockDeviceMappings image))
       ebsBlockDevs /\
     Forall2 flattensToEphemeral
       (filter (fun blockDev => ~ is_Some (Ebs blockDev)) (img_BlockDeviceMappings image))
       ephemeralBlockDevs) /\
  (~ Forall populated (img_BlockDeviceMappings image) ->
   Read st = (Panicked, Build_St observed w log)).
Proof.
  intros Hd Himg Hstate. simpl. rewrite (Read_available_run st out image w Hd Himg Hstate).
  split.
  - intros Hall.
    destruct (flatten_loop_populated (img_BlockDeviceMappings image) ([], [])
                (Build_St (setImageAttributes amiRootSnapshotId image
                             (imageArn partition region (d_Id (rd st))) (rd st))
                   w (trace st ++ [DescribeImagesCall (d_Id (rd st)) out None])) Hall)
      as (ebs & eph & -> & Hebs & Heph).
    by exists ebs, eph.
  - intros Hall. by rewrite flatten_loop_unpopulated.
Qed.

(** Reading again changes nothing: when Read has read an available
    image and the next DescribeImages call answers the same image, a
    second Read ends as the first did and leaves the resource data as
    the first Read left it. *)
Theorem Read_again_changes_nothing (st : St World) out image w out2 w2 :
  ec2_DescribeImages client (d_Id (rd st)) (remote st) = ((out, None), w) ->
  Images out = [image] ->
  State image = Some ImageStateAvailable ->
  ec2_DescribeImages client (d_Id (rd st)) w = ((out2, None), w2) ->
  Images out2 = [image] ->
  (Read (Read st).2).1 = (Read st).1 /\
  rd (Read (Read st).2).2 = rd (Read st).2.
Proof.
  intros Hd Himg Hstate Hd2 Himg2.
  rewrite (Read_available_run st out image w Hd Himg Hstate). cbv zeta.
  set (st0 := Build_St _ w _).
  destruct (foldM flattenBlockDev (img_BlockDeviceMappings image) ([], []) st0).1
    as [[ebs eph]|e|] eqn:HF; cbn [fst snd].
  - set (st1 := Build_St _ w (trace st0)).
    rewrite (Read_available_run st1 out2 image w2 Hd2 Himg2 Hstate). cbv zeta.
    set (st2 := Build_St _ w2 _).
    rewrite (flatten_loop_pure _ _ st0 st2). rewrite HF. done.
  - rewrite (Read_available_run st0 out2 image w2 Hd2 Himg2 Hstate). cbv zeta.
    set (st2 := Build_St _ w2 _).
    rewrite (flatten_loop_pure _ _ st0 st2). rewrite HF. done.
  - rewrite (Read_available_run st0 out2 image w2 Hd2 Himg2 Hstate). cbv zeta.
    set (st2 := Build_St _ w2 _).
    rewrite (flatten_loop_pure _ _ st0 st2). rewrite HF. done.
Qed.

(** *** The calls of Read *)

Lemma readAttempt_one_call id (st : St World) :
  exists ev,
    isDescribeImages ev /\ trace (readAttempt client id st).2 = (trace st ++ [ev])%list.
Proof.
  unfold readAttempt. rewrite bind_unfold. unfold DescribeImages.
  destruct (ec2_DescribeImages client id (remote st)) as [[out err] w].
  exists (DescribeImagesCall id out err). split; [done|].
  destruct err as [err|]; simpl; [|done].
  destruct (isAWSErr err _); [|done].
  rewrite bind_unfold. simpl. by destruct (d_IsNewResource (rd st)).
Qed.

Lemma Retry_loop_probes {T} (f : M World (T * option RetryError)) n (st : St World) :
  (forall s, exists ev, isDescribeImages ev /\ trace (f s).2 = (trace s ++ [ev])%list) ->
  exists evs,
    trace (Retry_loop f n st).2 = (trace st ++ evs)%list /\
    Forall isDescribeImages evs /\
    (1 <= length evs <= S n)%nat.
Proof.
  intros Hf. revert st. induction n as [|n IH]; intros st; simpl; rewrite bind_unfold;
    destruct (Hf st) as (ev & Hev & Ht);
    destruct (f st) as [[[res [[err|err]|]]|e|] st1]; simpl in *;
    try (exists [ev]; split; [done|]; split; [by repeat constructor|simpl; lia]).
  destruct (IH st1) as (evs & Ht' & Hevs & Hlen).
  exists (ev :: evs). split; [by rewrite Ht', Ht, <- app_assoc|].
  split; [by constructor|]. simpl. lia.
Qed.

Lemma emitsAtMost_DescribeImages id :
  emitsAtMost isDescribeImages 1 (DescribeImages client id).
Proof.
  intros st. unfold DescribeImages.
  destruct (ec2_DescribeImages client id (remote st)) as [[out err] w]. simpl.
  eexists [_]. split; [done|]. split; [by repeat constructor|done].
Qed.

Lemma emitsAtMost_WaitForAvailable t id :
  emitsAtMost isDescribeImages (S (attempts t)) (WaitForAvailable t id).
Proof.
  intros st. destruct (WaitForAvailable_probes st t id) as (evs & Ht & Hall & Hlen).
  exists evs. repeat split; [done..|lia].
Qed.

(** Read only reads: it issues DescribeImages calls and nothing else,
    at least one and at most those of the retry, one more after the
    retry timed out, and those of one wait for availability. *)
Theorem Read_only_describes_and_boundedly (st : St World) :
  let evs := newEvents st (Read st).2 in
  Forall isDescribeImages evs /\
  (1 <= length evs <= (attempts OneMinute + 2) + S (attempts TimeoutCreate))%nat.
Proof.
  simpl. unfold resourceAwsAmiRead, Retry. rewrite bind_unfold. cbn [getData].
  rewrite bind_unfold.
  destruct (Retry_loop_probes (readAttempt client (d_Id (rd st))) (attempts OneMinute) st)
    as (evs1 & Ht1 & Hall1 & Hlen1); [intros s; apply readAttempt_one_call|].
  destruct (Retry_loop (readAttempt client (d_Id (rd st))) (attempts OneMinute) st)
    as [[[res err]|e|] st1]; simpl in Ht1;
    [|cbv beta iota; cbn [snd];
      rewrite (newEvents_app st st1 evs1 Ht1); split; [done|lia]..].
  match goal with
  | |- context [newEvents st (?k st1).2] =>
      assert (emitsAtMost isDescribeImages (1 + S (attempts TimeoutCreate)) k) as Hrest
  end.
  { apply emitsAtMost_bind.
    - destruct (isResourceTimeoutError err);
        [apply emitsAtMost_DescribeImages|apply emitsAtMost_ret].
    - intros [res' [err'|]]; [apply emitsAtMost_fail|].
      destruct (bool_decide _); [apply emitsAtMost_modifyData|].
      apply (emitsAtMost_bind _ 0 (S (attempts TimeoutCreate))); [apply emitsAtMost_deref|].
      intros image.
      apply (emitsAtMost_bind _ 0 (S (attempts TimeoutCreate))); [apply emitsAtMost_deref|].
      intros state.
      apply (emitsAtMost_le _ (S (attempts TimeoutCreate) + 0)); [lia|].
      apply emitsAtMost_bind.
      + destruct (bool_decide _); [|apply emitsAtMost_ret].
        apply (emitsAtMost_le _ (S (attempts TimeoutCreate) + 0)); [lia|].
        apply emitsAtMost_bind; [apply emitsAtMost_WaitForAvailable|intros image'].
        apply (emitsAtMost_bind _ 0 0); [apply emitsAtMost_deref|intros].
        apply emitsAtMost_ret.
      + intros [image' state'].
        destruct (bool_decide _); [apply emitsAtMost_modifyData|].
        destruct (bool_decide _); [apply emitsAtMost_fail|].
        apply (emitsAtMost_bind _ 0 0); [apply emitsAtMost_getData|intros d'].
        apply (emitsAtMost_bind _ 0 0); [apply emitsAtMost_modifyData|intros _].
        apply (emitsAtMost_bind _ 0 0); [|intros [? ?]; apply emitsAtMost_modifyData].
        apply emitsAtMost_silent. intros s.
        by rewrite (flatten_loop_pure _ _ s s). }
  destruct (Hrest st1) as (evs2 & Ht2 & Hall2 & Hlen2).
  rewrite (newEvents_app st _ (evs1 ++ evs2)).
  - split; [by apply Forall_app|]. rewrite length_app. lia.
  - by rewrite Ht2, Ht1, app_assoc.
Qed.

End MoreFacts.

(** ** The further properties on example runs *)

Module MoreExamples.

Import Scripted Faulty.

Lemma Create_refused_example :
  Create unregisteredStart
    = (Failed accessDenied,
       Build_St (rd unregisteredStart) (remote unregisteredStart)
         [RegisterImageCall (registerImageInput (rd unregisteredStart) []) (inl accessDenied)]).
Proof.
  apply (Create_register_error_records_nothing
           client "aws" "us-east-1" id (fun _ => "") attempts ebsSetList ephemeralSetList unregisteredStart []);
    reflexivity.
Defined.

Lemma Create_scalars_example :
  req_Description (registerImageInput numericsData []) = Some "" /\
  (forall k, req_KernelId (registerImageInput numericsData []) = Some k <-> "" = k /\ k <> "").
Proof.
  destruct (Create_request_omits_empty_kernel_and_ramdisk
              client "aws" "us-east-1" id (fun _ => "") attempts ebsSetList ephemeralSetList numericsStart
              (registerImageInput numericsData
                 [{| DeviceName := Some "/dev/sda1"; VirtualName := None;
                     Ebs := Some {| DeleteOnTermination := Some true; Encrypted := None;
                                    Iops := None; SnapshotId := None;
                                    VolumeSize := Some 8; VolumeType := Some "gp2" |} |};
                  {| DeviceName := Some "/dev/sdb"; VirtualName := None;
                     Ebs := Some {| DeleteOnTermination := Some true; Encrypted := None;
                                    Iops := None; SnapshotId := None;
                                    VolumeSize := None; VolumeType := Some "gp2" |} |};
                  {| DeviceName := Some "/dev/sdc"; VirtualName := None;
                     Ebs := Some {| DeleteOnTermination := Some true; Encrypted := None;
                                    Iops := Some 100; SnapshotId := None;
                                    VolumeSize := Some 20; VolumeType := Some "gp2" |} |}])
              (inr "ami-1")) as (_ & Hd & _ & _ & _ & _ & _ & _ & Hk & _).
  { vm_compute. left. reflexivity. }
  split; [exact Hd|exact Hk].
Defined.

Lemma Create_mixed_example :
  exists ebsMappings,
    Forall2 sendsSnapshotOrEncrypted (d_ebs_block_device mixedData) ebsMappings.
Proof.
  destruct (Create_request_never_has_snapshot_and_encrypted
              client "aws" "us-east-1" id (fun _ => "") attempts ebsSetList ephemeralSetList mixedStart
              (registerImageInput mixedData
                 [{| DeviceName := Some "/dev/sda1"; VirtualName := None;
                     Ebs := Some {| DeleteOnTermination := Some true; Encrypted := None;
                                    Iops := None; SnapshotId := Some "snap-1";
                                    VolumeSize := None; VolumeType := Some "gp2" |} |};
                  {| DeviceName := Some "/dev/sdb"; VirtualName := None;
                     Ebs := Some {| DeleteOnTermination := Some true; Encrypted := Some true;
                                    Iops := None; SnapshotId := None;
                                    VolumeSize := Some 8; VolumeType := Some "gp2" |} |}])
              (inr "ami-1")) as (ebsMappings & _ & HF & _).
  { vm_compute. left. reflexivity. }
  exists ebsMappings. exact HF.
Defined.

Lemma Update_refused_modify_example :
  Update refusedModifyStart
    = (Failed accessDenied,
       Build_St (rd refusedModifyStart) (remote refusedModifyStart)
         [ModifyImageAttributeCall "ami-1" "my image" (Some accessDenied)]).
Proof.
  apply (Update_modify_error_skips_read
           client "aws" "us-east-1" id (fun _ => "") attempts ebsSetList ephemeralSetList refusedModifyStart);
    [by vm_compute|discriminate|reflexivity].
Defined.

Lemma WaitForAvailable_available_example :
  State observedImage = Some ImageStateAvailable.
Proof.
  apply (WaitForAvailable_returns_an_available_image client attempts observedStart
           (Build_St (rd observedStart)
              (world [({| Images := [observedImage] |}, None)] [])
              [DescribeImagesCall "ami-1" {| Images := [observedImage] |} None])
           TimeoutCreate "ami-1" observedImage).
  by vm_compute.
Defined.

Lemma WaitForDestroy_denied_example :
  resourceAwsAmiWaitForDestroy client attempts TimeoutDelete "ami-1" deniedStart
    = (Done tt,
       Build_St (rd deniedStart) (world [] [])
         [DescribeImagesCall "ami-1" {| Images := [] |} (Some accessDenied)]).
Proof.
  apply (WaitForDestroy_takes_an_error_without_images_for_destroyed
           client attempts deniedStart TimeoutDelete "ami-1" {| Images := [] |} accessDenied);
    [reflexivity|left; reflexivity].
Defined.

Lemma WaitForDestroy_deregistered_example :
  resourceAwsAmiWaitForDestroy client attempts TimeoutDelete "ami-1" deregisteredStart
    = (Failed (ErrorString
                 ("Error waiting for AMI (" +:+ "ami-1" +:+ ") to be deleted: "
                  +:+ Error (UnexpectedStateError "deregistered"))),
       Build_St (rd deregisteredStart) (world [] [])
         [DescribeImagesCall "ami-1" {| Images := [image "deregistered"] |} None]).
Proof.
  destruct (waits_fail_at_once_on_an_unexpected_status
              client attempts deregisteredStart TimeoutDelete "ami-1"
              {| Images := [image "deregistered"] |} (image "deregistered") []
              "deregistered" (world [] [])) as (_ & Hdestroy); [reflexivity..|].
  apply Hdestroy; discriminate.
Defined.

Lemma WaitForAvailable_second_probe_example :
  resourceAwsAmiWaitForAvailable client attempts TimeoutCreate "ami-1" taggedStart
    = (Done (image "available"),
       Build_St (rd taggedStart)
         (world [({| Images := [image "available"] |}, None)] [])
         [DescribeImagesCall "ami-1" {| Images := [image "pending"] |} None;
          DescribeImagesCall "ami-1" {| Images := [image "available"] |} None]).
Proof.
  apply (WaitForAvailable_polls_a_pending_image_again
           client attempts taggedStart TimeoutCreate "ami-1"
           {| Images := [image "pending"] |} (image "pending") []
           (world [({| Images := [image "available"] |}, None);
                   ({| Images := [image "available"] |}, None)] [])
           {| Images := [image "available"] |} (image "available") []);
    [discriminate|reflexivity..].
Defined.

Lemma WaitForAvailable_timeout_example :
  (resourceAwsAmiWaitForAvailable pendingForever attempts TimeoutCreate "ami-1"
     notFoundYetRegistered).1
    = Failed (ErrorString ("Error waiting for AMI (" +:+ "ami-1" +:+ ") to be ready: "
                           +:+ Error (TimeoutError ImageStatePending))) /\
  length (newEvents notFoundYetRegistered
            (resourceAwsAmiWaitForAvailable pendingForever attempts TimeoutCreate "ami-1"
               notFoundYetRegistered).2) = 6%nat.
Proof.
  apply (WaitForAvailable_times_out_with_the_last_status
           pendingForever attempts notFoundYetRegistered TimeoutCreate "ami-1").
  intros w. exists {| Images := [image "pending"] |}, (image "pending"), [], w.
  repeat split; reflexivity.
Defined.

Lemma Read_denied_example :
  Read deniedStart
    = (Failed (ErrorString ("Unable to find AMI after retries: " +:+ Error accessDenied)),
       Build_St (rd deniedStart) (world [] [])
         [DescribeImagesCall "ami-1" {| Images := [] |} (Some accessDenied)]).
Proof.
  apply (Read_describe_error_is_not_retried
           client "aws" "us-east-1" id (fun _ => "") attempts ebsSetList ephemeralSetList deniedStart
           {| Images := [] |} accessDenied); reflexivity.
Defined.

Lemma Read_lost_example :
  (resourceAwsAmiRead lost "aws" "us-east-1" id (fun _ => "") attempts ebsSetList ephemeralSetList
     notFoundYetRegistered).1
    = Failed (ErrorString ("Unable to find AMI after retries: " +:+ Error notFound)) /\
  length (newEvents notFoundYetRegistered
            (resourceAwsAmiRead lost "aws" "us-east-1" id (fun _ => "") attempts ebsSetList
               ephemeralSetList notFoundYetRegistered).2) = 6%nat.
Proof.
  destruct (Read_retries_not_found_on_a_new_resource_then_fails
              lost "aws" "us-east-1" id (fun _ => "") attempts ebsSetList ephemeralSetList
              notFoundYetRegistered)
    as (out & err & _ & _ & _ & _ & _ & Hlen).
  - reflexivity.
  - intros w. exists {| Images := [] |}, notFound, w. split; reflexivity.
  - split; [reflexivity|exact Hlen].
Defined.

Lemma Read_failed_example :
  Read failedStart
    = (Failed (ErrorString ("AMI has become " +:+ "failed")),
       Build_St (rd failedStart) (world [] [])
         [DescribeImagesCall "ami-1" {| Images := [image "failed"] |} None]).
Proof.
  apply (Read_fails_on_an_unexpected_state
           client "aws" "us-east-1" id (fun _ => "") attempts ebsSetList ephemeralSetList failedStart
           {| Images := [image "failed"] |} (image "failed") "failed");
    first [reflexivity|discriminate].
Defined.

Lemma Read_observed_example :
  exists ebsBlockDevs ephemeralBlockDevs,
    (Read observedStart).1 = Done tt /\
    d_ebs_block_device (rd (Read observedStart).2) = ebsSetList ebsBlockDevs /\
    d_ephemeral_block_device (rd (Read observedStart).2) = ephemeralSetList ephemeralBlockDevs /\
    Forall2 flattensTo
      (filter (fun blockDev => is_Some (Ebs blockDev)) (img_BlockDeviceMappings observedImage))
      ebsBlockDevs /\
    Forall2 flattensToEphemeral
      (filter (fun blockDev => ~ is_Some (Ebs blockDev))
         (img_BlockDeviceMappings observedImage))
      ephemeralBlockDevs.
Proof.
  destruct (Read_stores_the_observed_image
              client "aws" "us-east-1" id (fun _ => "") attempts ebsSetList ephemeralSetList
              observedStart {| Images := [observedImage] |} observedImage
              (world [({| Images := [observedImage] |}, None)] []))
    as (Hpop & _); [reflexivity..|].
  destruct Hpop as (ebs & eph & HR & Hebs & Heph).
  { repeat constructor; simpl; eauto. }
  exists ebs, eph.
  split; [exact (f_equal fst HR)|].
  split; [exact (f_equal (fun r => d_ebs_block_device (rd r.2)) HR)|].
  split; [exact (f_equal (fun r => d_ephemeral_block_device (rd r.2)) HR)|].
  split; [exact Hebs|exact Heph].
Defined.

Lemma Read_twice_example :
  rd (Read (Read observedStart).2).2 = rd (Read observedStart).2.
Proof.
  destruct (Read_again_changes_nothing
              client "aws" "us-east-1" id (fun _ => "") attempts ebsSetList ephemeralSetList observedStart
              {| Images := [observedImage] |} observedImage
              (world [({| Images := [observedImage] |}, None)] [])
              {| Images := [observedImage] |} (world [] [])) as (_ & Hrd);
    [reflexivity..|].
  exact Hrd.
Defined.

(** The run of Read on the observed image, in full. *)
Example Read_observed_data :
  (Read observedStart).1 = Done tt /\
  d_ebs_block_device (rd (Read observedStart).2)
    = [{| device_name := "/dev/sda1"; delete_on_termination := true; encrypted := false;
          iops := Some 0; snapshot_id := "snap-1"; volume_size := Some 8;
          volume_type := "gp2" |}] /\
  d_ephemeral_block_device (rd (Read observedStart).2)
    = [{| eph_device_name := "/dev/sdb"; eph_virtual_name := "ephemeral0" |}] /\
  d_arn (rd (Read observedStart).2) = "arn:aws:ec2:us-east-1::image/ami-1" /\
  d_Id (rd (Read observedStart).2) = "ami-1".
Proof. repeat split; by vm_compute. Qed.

End MoreExamples.
